(** * A compact Toeplitz matrix container (boost/numeric/ublas/toeplitz.hpp)

    Shallow embedding of the class template [toeplitz_matrix<T, A>] and of
    its index cursors, followed by the properties of its storage scheme.

    - [size_type] is an unsigned machine integer of [w] bits: a [Z] with the
      wrap-around of every addition and subtraction written out.
    - the storage array [A] is a [list T]; a reference into it is a slot
      number.
    - member functions that can fail return an [outcome]; member functions
      that mutate the object thread it explicitly.
    - building a storage array can fail: a request for the largest size
      value, which no allocation can meet, raises [bad_alloc].
    - objects live in a store indexed by address, so that [operator=],
      [swap] and the iterators see object identity ([this != &m]). *)

From Stdlib Require Import ZArith Lia.
From stdpp Require Import base option list strings gmap.

Local Open Scope Z_scope.

(** ** Exceptions and outcomes *)

(** The two exception classes the header raises, and the one with which
    the allocation of the storage fails. *)
Inductive exception : Type :=
| bad_index
| external_logic
| bad_alloc.

(** What a call produces: a value, a raised exception, or behaviour the
    language leaves undefined (a copy past the end of the storage, a
    dangling container reference). *)
Inductive outcome (A : Type) : Type :=
| Ok (a : A)
| Raise (e : exception)
| Undefined.

Arguments Ok {A} a.
Arguments Raise {A} e.
Arguments Undefined {A}.

#[global] Instance outcome_ret : MRet outcome := fun A a => Ok a.

#[global] Instance outcome_bind : MBind outcome := fun A B f x =>
  match x with
  | Ok a => f a
  | Raise e => Raise e
  | Undefined => Undefined
  end.

(** Code that mutates a state [S] and can fail: the state at the point of
    failure is kept, as it is when an exception leaves a member function. *)
Definition stateful (S A : Type) : Type := S -> S * outcome A.

#[global] Instance stateful_ret {S} : MRet (stateful S) := fun A a s => (s, Ok a).

#[global] Instance stateful_bind {S} : MBind (stateful S) := fun A B f x s =>
  match x s with
  | (s', Ok a) => f a s'
  | (s', Raise e) => (s', Raise e)
  | (s', Undefined) => (s', Undefined)
  end.

(** An expression that only computes. *)
Definition pure {S A} (x : outcome A) : stateful S A := fun s => (s, x).

(** Reading the state. *)
Definition load {S A} (f : S -> A) : stateful S A := fun s => (s, Ok (f s)).

(** Modelled from the spec: the macro [BOOST_UBLAS_CHECK] is declared outside
    this header.  This is its checked build variant, the one the error
    conditions of the specification are stated for: a false condition raises
    the given exception, a true one does nothing. *)
Definition BOOST_UBLAS_CHECK (condition : bool) (e : exception) : outcome unit :=
  if condition then Ok tt else Raise e.

(** ** Unsigned size arithmetic *)

Section Size.
Variable w : positive.

Definition modulus : Z := 2 ^ Z.pos w.

Definition wrap (z : Z) : Z := z mod modulus.

(** The values a [size_type] variable can hold. *)
Definition representable (z : Z) : Prop := 0 <= z < modulus.

Definition size_add (a b : Z) : Z := wrap (a + b).
Definition size_sub (a b : Z) : Z := wrap (a - b).

(** The numbers of elements a storage array can be built with: every size
    value but the largest one, which exceeds what the address space holds. *)
Definition allocatable (n : Z) : Prop := n <> modulus - 1.

End Size.

(** ** The storage array and the matrix *)

Section Container.
Variable w : positive.
Context {T : Type} `{EqDecision T}.
(** [value_type ()], the default element. *)
Variable zero : T.

Notation "a +s b" := (size_add w a b) (at level 50, left associativity).
Notation "a -s b" := (size_sub w a b) (at level 50, left associativity).

(** A sequence of [n] elements holding the default value. *)
Definition default_elements (n : Z) : list T := replicate (Z.to_nat n) zero.

(** Modelled from the spec: the storage array type [A] ([unbounded_array])
    is declared outside this header.  [A (n)] allocates a sequence of [n]
    elements holding the default value.  The allocation of [2 ^ w - 1]
    elements, the largest size value, cannot be met and raises [bad_alloc];
    every smaller request is taken to succeed. *)
Definition unbounded_array (n : Z) : outcome (list T) :=
  if n =? modulus w - 1 then Raise bad_alloc else Ok (default_elements n).

(** Modelled from the spec: [a.size ()] of the storage array, the number of
    elements of the sequence. *)
Definition array_size (a : list T) : Z := Z.of_nat (length a).

(** Modelled from the spec: [a.resize (n)] of the storage array, which
    discards the prior values: a fresh array of [n] default elements, whose
    allocation fails as that of [A (n)] does and then leaves [a] as it
    was. *)
Definition array_resize (a : list T) (n : Z) : outcome (list T) := unbounded_array n.

(** Modelled from the spec: [&a [k]], the subscript of the storage array in
    the checked build, where a bound violation is an index error; the result
    is a reference to slot [k]. *)
Definition array_ref (a : list T) (k : Z) : outcome nat :=
  BOOST_UBLAS_CHECK (k <? array_size a) bad_index ;;
  Ok (Z.to_nat k).

(** Reading and writing through a reference. *)
Definition array_load (a : list T) (r : nat) : outcome T :=
  match a !! r with
  | Some x => Ok x
  | None => Undefined
  end.

Definition array_store (a : list T) (r : nat) (t : T) : list T := <[r := t]> a.

(** [a [k]] as an rvalue. *)
Definition array_at (a : list T) (k : Z) : outcome T :=
  r ← array_ref a k; array_load a r.

(** [std::copy (src.begin (), src.end (), dst.begin () + pos)]: element by
    element; writing past the end of [dst] is undefined. *)
Fixpoint std_copy (src dst : list T) (pos : nat) : outcome (list T) :=
  match src with
  | [] => Ok dst
  | x :: src' =>
      if decide (pos < length dst)%nat
      then std_copy src' (<[pos := x]> dst) (S pos)
      else Undefined
  end.

(** [std::fill (a.begin (), a.end (), t)]. *)
Definition std_fill (a : list T) (t : T) : list T := replicate (length a) t.

(** The data members, in declaration order. *)
Record toeplitz_matrix : Type := Build_toeplitz_matrix {
  data_ : list T;
  size1_ : Z;
  size2_ : Z
}.

(** *** Construction *)

(** [toeplitz_matrix ()]: [data_ (0)], an array of no element, allocates
    nothing. *)
Definition toeplitz_matrix_default : toeplitz_matrix :=
  {| data_ := default_elements 0; size1_ := 0; size2_ := 0 |}.

(** [toeplitz_matrix (size1, size2)]: [data_], declared first, is
    initialised first. *)
Definition toeplitz_matrix_sized (size1 size2 : Z) : outcome toeplitz_matrix :=
  data ← unbounded_array (size1 +s size2 -s 1);
  Ok {| data_ := data; size1_ := size1; size2_ := size2 |}.

(** [toeplitz_matrix (size1, size2, data)] *)
Definition toeplitz_matrix_data (size1 size2 : Z) (data : list T) : toeplitz_matrix :=
  {| data_ := data; size1_ := size1; size2_ := size2 |}.

(** [toeplitz_matrix (row, column)]: the members are initialised first,
    [data_] before the two dimensions, so that the storage is allocated
    before any check; then the three checks run, then the two copies fill
    the storage. *)
Definition toeplitz_matrix_row_column (row column : list T) : outcome toeplitz_matrix :=
  data ← unbounded_array (array_size row +s array_size column -s 1);
  let size1 := array_size column in
  let size2 := array_size row in
  BOOST_UBLAS_CHECK (negb (array_size row =? 0)) external_logic ;;
  BOOST_UBLAS_CHECK (negb (array_size column =? 0)) external_logic ;;
  r0 ← array_at row 0;
  c0 ← array_at column 0;
  BOOST_UBLAS_CHECK (bool_decide (r0 = c0)) external_logic ;;
  data ← std_copy (reverse column) data 0;
  data ← std_copy (drop 1 row) data (Z.to_nat (array_size column));
  Ok {| data_ := data; size1_ := size1; size2_ := size2 |}.

(** *** Accessors *)

Definition size1 (m : toeplitz_matrix) : Z := size1_ m.
Definition size2 (m : toeplitz_matrix) : Z := size2_ m.
Definition data (m : toeplitz_matrix) : list T := data_ m.

(** The representation invariant of the data model: the dimensions and the
    storage length are size values, and the storage holds one value per
    diagonal. *)
Definition well_formed (m : toeplitz_matrix) : Prop :=
  representable w (size1_ m) /\ representable w (size2_ m) /\
  representable w (array_size (data_ m)) /\
  array_size (data_ m) = size1_ m + size2_ m - 1.

(** The storage invariant as the data model states it: one value per
    diagonal when both dimensions are positive, no value in a matrix of no
    rows and no columns. *)
Definition storage_invariant (m : toeplitz_matrix) : Prop :=
  (0 < size1_ m /\ 0 < size2_ m -> array_size (data_ m) = size1_ m + size2_ m - 1) /\
  (size1_ m = 0 /\ size2_ m = 0 -> data_ m = []).

(** One stored value per diagonal. *)
Definition diagonal_count (m : toeplitz_matrix) : Prop :=
  array_size (data_ m) = size1_ m + size2_ m - 1.

(** What the constructors build: one stored value per diagonal, or the
    matrix of no rows and no columns with an empty storage. *)
Definition store_matches (m : toeplitz_matrix) : Prop :=
  diagonal_count m \/ (size1_ m = 0 /\ size2_ m = 0 /\ data_ m = []).

(** Two states of an object with the same dimensions and as many stored
    values. *)
Definition same_shape (m m' : toeplitz_matrix) : Prop :=
  size1_ m' = size1_ m /\ size2_ m' = size2_ m /\
  array_size (data_ m') = array_size (data_ m).

(** *** Element access *)

(** The subscript expression of [operator ()], with its two branches. *)
Definition offset (m : toeplitz_matrix) (i j : Z) : Z :=
  if i >=? j
  then size1_ m -s 1 -s i +s j
  else size1_ m +s j -s i -s 1.

(** [operator () (i, j)], the mutable overload: a reference into the
    storage. *)
Definition at_ref (m : toeplitz_matrix) (i j : Z) : outcome nat :=
  BOOST_UBLAS_CHECK (i <? size1_ m) bad_index ;;
  BOOST_UBLAS_CHECK (j <? size2_ m) bad_index ;;
  array_ref (data m) (offset m i j).

(** [operator () (i, j) const] *)
Definition at_const (m : toeplitz_matrix) (i j : Z) : outcome T :=
  BOOST_UBLAS_CHECK (i <? size1_ m) bad_index ;;
  BOOST_UBLAS_CHECK (j <? size2_ m) bad_index ;;
  array_at (data m) (offset m i j).

(** *** Member functions that mutate the object *)

Abbreviation method := (stateful toeplitz_matrix).

Definition store_size1_ (z : Z) : method unit := fun this =>
  ({| data_ := data_ this; size1_ := z; size2_ := size2_ this |}, Ok tt).

Definition store_size2_ (z : Z) : method unit := fun this =>
  ({| data_ := data_ this; size1_ := size1_ this; size2_ := z |}, Ok tt).

Definition store_data_ (a : list T) : method unit := fun this =>
  ({| data_ := a; size1_ := size1_ this; size2_ := size2_ this |}, Ok tt).

(** [resize (size1, size2, preserve)] *)
Definition resize (size1 size2 : Z) (preserve : bool) : method unit :=
  if preserve then
    old1 ← load size1_;
    old2 ← load size2_;
    pure (BOOST_UBLAS_CHECK (size1 +s size2 =? old1 +s old2) external_logic) ;;
    store_size1_ size1 ;;
    store_size2_ size2
  else
    store_size1_ size1 ;;
    store_size2_ size2 ;;
    a ← load data_;
    a ← pure (array_resize a (size1 +s size2 -s 1));
    store_data_ a.

(** [operator () (i, j) = t]: assignment through the reference the mutable
    overload returns; the value is the reference. *)
Definition assign_element (i j : Z) (t : T) : method nat :=
  this ← load id;
  r ← pure (at_ref this i j);
  store_data_ (array_store (data this) r t) ;;
  mret r.

(** [insert_element (i, j, t)] *)
Definition insert_element (i j : Z) (t : T) : method nat :=
  assign_element i j t.

(** [erase_element (i, j)] *)
Definition erase_element (i j : Z) : method unit :=
  assign_element i j zero ;; mret tt.

(** [clear ()] *)
Definition clear : method unit :=
  a ← load data_;
  store_data_ (std_fill a zero).

End Container.

(** ** Objects and their identity *)

Section Objects.
Variable w : positive.
Context {T : Type} `{EqDecision T}.
Variable zero : T.

(** The matrices alive, by address. *)
Abbreviation heap := (gmap nat (@toeplitz_matrix T)).
Abbreviation program := (stateful heap).
Abbreviation method := (stateful (@toeplitz_matrix T)).

(** [p->f (...)]: a member function run on the object at address [p]. *)
Definition call {A} (p : nat) (f : method A) : program A := fun h =>
  match h !! p with
  | Some m => let '(m', r) := f m in (<[p := m']> h, r)
  | None => (h, Undefined)
  end.

(** [p->x]: a data member read. *)
Definition read {A} (p : nat) (x : @toeplitz_matrix T -> A) : program A := fun h =>
  match h !! p with
  | Some m => (h, Ok (x m))
  | None => (h, Undefined)
  end.

(** [operator = (m)]: three member assignments, then [return *this]. *)
Definition assign (this m : nat) : program nat :=
  s ← read m size1_;
  call this (store_size1_ s) ;;
  s ← read m size2_;
  call this (store_size2_ s) ;;
  a ← read m data;
  call this (store_data_ a) ;;
  mret this.

(** [std::swap (x, m.x)] on one data member of two objects. *)
Definition std_swap {A} (x : @toeplitz_matrix T -> A) (store_x : A -> method unit)
    (this m : nat) : program unit :=
  tmp ← read this x;
  other ← read m x;
  call this (store_x other) ;;
  call m (store_x tmp).

(** [swap (m)], the member function. *)
Definition swap (this m : nat) : program unit :=
  if decide (this ≠ m) then
    std_swap size1_ store_size1_ this m ;;
    std_swap size2_ store_size2_ this m ;;
    std_swap data store_data_ this m
  else mret tt.

(** [swap (m1, m2)], the friend function. *)
Definition swap_friend (m1 m2 : nat) : program unit := swap m1 m2.

(** The data members that a member access [m.name] finds, for the two names
    that hold a dimension. *)
Definition size_member (name : string) : option (@toeplitz_matrix T -> Z) :=
  if decide (name = "size1_") then Some size1_
  else if decide (name = "size2_") then Some size2_
  else None.

(** [toeplitz_matrix (const toeplitz_matrix& m)], with the initialisers
    [size1_ (m.size1_), size2_ (m.size_2), data_ (m.data_)].  A member access
    that names no member is ill-formed: [None] says that the constructor
    cannot be instantiated, so that no object is built. *)
Definition toeplitz_matrix_copy (m : @toeplitz_matrix T) : option (@toeplitz_matrix T) :=
  m_size1_ ← size_member "size1_";
  m_size_2 ← size_member "size_2";
  Some {| data_ := data_ m; size1_ := m_size1_ m; size2_ := m_size_2 m |}.

End Objects.

(** ** Iterators: index cursors over the logical matrix *)

(** The state of a [const_iterator1]: the container it refers to and the
    two indices. *)
Module const_iterator1.
Record t : Type := make { container : nat; it1_ : Z; it2_ : Z }.
End const_iterator1.

Module const_iterator2.
Record t : Type := make { container : nat; it1_ : Z; it2_ : Z }.
End const_iterator2.

Section Iterators.
Variable w : positive.
Context {T : Type} `{EqDecision T}.

Abbreviation heap := (gmap nat (@toeplitz_matrix T)).

(** The container an iterator refers to, as its [operator ()] gives it. *)
Definition container_ref (h : heap) (p : nat) : outcome (@toeplitz_matrix T) :=
  match h !! p with
  | Some m => Ok m
  | None => Undefined
  end.

(** *** [const_iterator1] *)

(** [operator ++] *)
Definition const_iterator1_incr (it : const_iterator1.t) : const_iterator1.t :=
  const_iterator1.make (const_iterator1.container it)
    (size_add w (const_iterator1.it1_ it) 1) (const_iterator1.it2_ it).

(** [operator --] *)
Definition const_iterator1_decr (it : const_iterator1.t) : const_iterator1.t :=
  const_iterator1.make (const_iterator1.container it)
    (size_sub w (const_iterator1.it1_ it) 1) (const_iterator1.it2_ it).

(** [operator *] *)
Definition const_iterator1_deref (h : heap) (it : const_iterator1.t) : outcome T :=
  m ← container_ref h (const_iterator1.container it);
  at_const w m (const_iterator1.it1_ it) (const_iterator1.it2_ it).

(** [begin ()] and [end ()]: the dual iterator over the row of [it]. *)
Definition const_iterator1_begin (it : const_iterator1.t) : const_iterator2.t :=
  const_iterator2.make (const_iterator1.container it) (const_iterator1.it1_ it) 0.

Definition const_iterator1_end (h : heap) (it : const_iterator1.t) : outcome const_iterator2.t :=
  m ← container_ref h (const_iterator1.container it);
  Ok (const_iterator2.make (const_iterator1.container it) (const_iterator1.it1_ it) (size2 m)).

(** [index1 ()] and [index2 ()] *)
Definition const_iterator1_index1 (it : const_iterator1.t) : Z := const_iterator1.it1_ it.
Definition const_iterator1_index2 (it : const_iterator1.t) : Z := const_iterator1.it2_ it.

(** [operator ==] *)
Definition const_iterator1_eq (x it : const_iterator1.t) : outcome bool :=
  BOOST_UBLAS_CHECK
    (bool_decide (const_iterator1.container x = const_iterator1.container it))
    external_logic ;;
  BOOST_UBLAS_CHECK (const_iterator1.it2_ x =? const_iterator1.it2_ it) external_logic ;;
  Ok (const_iterator1.it1_ x =? const_iterator1.it1_ it).

(** *** [const_iterator2] *)

(** [operator ++] *)
Definition const_iterator2_incr (it : const_iterator2.t) : const_iterator2.t :=
  const_iterator2.make (const_iterator2.container it)
    (const_iterator2.it1_ it) (size_add w (const_iterator2.it2_ it) 1).

(** [operator --] *)
Definition const_iterator2_decr (it : const_iterator2.t) : const_iterator2.t :=
  const_iterator2.make (const_iterator2.container it)
    (const_iterator2.it1_ it) (size_sub w (const_iterator2.it2_ it) 1).

(** [operator *] *)
Definition const_iterator2_deref (h : heap) (it : const_iterator2.t) : outcome T :=
  m ← container_ref h (const_iterator2.container it);
  at_const w m (const_iterator2.it1_ it) (const_iterator2.it2_ it).

(** [begin ()] and [end ()]: the dual iterator over the column of [it]. *)
Definition const_iterator2_begin (it : const_iterator2.t) : const_iterator1.t :=
  const_iterator1.make (const_iterator2.container it) 0 (const_iterator2.it2_ it).

Definition const_iterator2_end (h : heap) (it : const_iterator2.t) : outcome const_iterator1.t :=
  m ← container_ref h (const_iterator2.container it);
  Ok (const_iterator1.make (const_iterator2.container it) (size1 m) (const_iterator2.it2_ it)).

(** [index1 ()] and [index2 ()] *)
Definition const_iterator2_index1 (it : const_iterator2.t) : Z := const_iterator2.it1_ it.
Definition const_iterator2_index2 (it : const_iterator2.t) : Z := const_iterator2.it2_ it.

(** [operator ==] *)
Definition const_iterator2_eq (x it : const_iterator2.t) : outcome bool :=
  BOOST_UBLAS_CHECK
    (bool_decide (const_iterator2.container x = const_iterator2.container it))
    external_logic ;;
  BOOST_UBLAS_CHECK (const_iterator2.it1_ x =? const_iterator2.it1_ it) external_logic ;;
  Ok (const_iterator2.it2_ x =? const_iterator2.it2_ it).

(** *** The iterators of a matrix *)

(** [begin1 ()] and [end1 ()] of the matrix at address [this]. *)
Definition begin1 (this : nat) : const_iterator1.t := const_iterator1.make this 0 0.

Definition end1 (h : heap) (this : nat) : outcome const_iterator1.t :=
  m ← container_ref h this;
  Ok (const_iterator1.make this (size1_ m) 0).

(** [begin2 ()] and [end2 ()] *)
Definition begin2 (this : nat) : const_iterator2.t := const_iterator2.make this 0 0.

Definition end2 (h : heap) (this : nat) : outcome const_iterator2.t :=
  m ← container_ref h this;
  Ok (const_iterator2.make this 0 (size2_ m)).

(** *** Traversal *)

(** The positions that the loop [for (it = first; !(it == last); ++ it)]
    visits, in order.  [None] when [fuel] iterations did not reach [last]. *)
Fixpoint const_iterator1_range (fuel : nat) (first last : const_iterator1.t)
    : option (outcome (list const_iterator1.t)) :=
  match fuel with
  | O => None
  | S fuel' =>
      match const_iterator1_eq first last with
      | Ok true => Some (Ok [])
      | Ok false =>
          match const_iterator1_range fuel' (const_iterator1_incr first) last with
          | Some (Ok visited) => Some (Ok (first :: visited))
          | stopped => stopped
          end
      | Raise e => Some (Raise e)
      | Undefined => Some Undefined
      end
  end.

Fixpoint const_iterator2_range (fuel : nat) (first last : const_iterator2.t)
    : option (outcome (list const_iterator2.t)) :=
  match fuel with
  | O => None
  | S fuel' =>
      match const_iterator2_eq first last with
      | Ok true => Some (Ok [])
      | Ok false =>
          match const_iterator2_range fuel' (const_iterator2_incr first) last with
          | Some (Ok visited) => Some (Ok (first :: visited))
          | stopped => stopped
          end
      | Raise e => Some (Raise e)
      | Undefined => Some Undefined
      end
  end.

End Iterators.

(** ** Iterator arithmetic *)

Section IteratorArithmetic.
Variable w : positive.

(** The values a [difference_type] variable can hold: the signed integers
    of [w] bits. *)
Definition difference_representable (n : Z) : Prop :=
  - 2 ^ (Z.pos w - 1) <= n < 2 ^ (Z.pos w - 1).

(** The conversion of a size value to [difference_type]. *)
Definition to_difference (z : Z) : Z :=
  if z <? 2 ^ (Z.pos w - 1) then z else z - modulus w.

(** [operator += (n)] of [const_iterator1]: the signed [n] is converted to
    the size type by the addition. *)
Definition const_iterator1_add (it : const_iterator1.t) (n : Z) : const_iterator1.t :=
  const_iterator1.make (const_iterator1.container it)
    (size_add w (const_iterator1.it1_ it) n) (const_iterator1.it2_ it).

(** [operator -= (n)] *)
Definition const_iterator1_sub (it : const_iterator1.t) (n : Z) : const_iterator1.t :=
  const_iterator1.make (const_iterator1.container it)
    (size_sub w (const_iterator1.it1_ it) n) (const_iterator1.it2_ it).

(** [operator - (it)]: the two checks, then the difference of the advancing
    indices as a [difference_type]. *)
Definition const_iterator1_difference (x it : const_iterator1.t) : outcome Z :=
  BOOST_UBLAS_CHECK
    (bool_decide (const_iterator1.container x = const_iterator1.container it))
    external_logic ;;
  BOOST_UBLAS_CHECK (const_iterator1.it2_ x =? const_iterator1.it2_ it) external_logic ;;
  Ok (to_difference (size_sub w (const_iterator1.it1_ x) (const_iterator1.it1_ it))).

(** [operator <] *)
Definition const_iterator1_lt (x it : const_iterator1.t) : outcome bool :=
  BOOST_UBLAS_CHECK
    (bool_decide (const_iterator1.container x = const_iterator1.container it))
    external_logic ;;
  BOOST_UBLAS_CHECK (const_iterator1.it2_ x =? const_iterator1.it2_ it) external_logic ;;
  Ok (const_iterator1.it1_ x <? const_iterator1.it1_ it).

(** [operator += (n)] of [const_iterator2] *)
Definition const_iterator2_add (it : const_iterator2.t) (n : Z) : const_iterator2.t :=
  const_iterator2.make (const_iterator2.container it)
    (const_iterator2.it1_ it) (size_add w (const_iterator2.it2_ it) n).

(** [operator -= (n)] *)
Definition const_iterator2_sub (it : const_iterator2.t) (n : Z) : const_iterator2.t :=
  const_iterator2.make (const_iterator2.container it)
    (const_iterator2.it1_ it) (size_sub w (const_iterator2.it2_ it) n).

(** [operator - (it)] *)
Definition const_iterator2_difference (x it : const_iterator2.t) : outcome Z :=
  BOOST_UBLAS_CHECK
    (bool_decide (const_iterator2.container x = const_iterator2.container it))
    external_logic ;;
  BOOST_UBLAS_CHECK (const_iterator2.it1_ x =? const_iterator2.it1_ it) external_logic ;;
  Ok (to_difference (size_sub w (const_iterator2.it2_ x) (const_iterator2.it2_ it))).

(** [operator <] *)
Definition const_iterator2_lt (x it : const_iterator2.t) : outcome bool :=
  BOOST_UBLAS_CHECK
    (bool_decide (const_iterator2.container x = const_iterator2.container it))
    external_logic ;;
  BOOST_UBLAS_CHECK (const_iterator2.it1_ x =? const_iterator2.it1_ it) external_logic ;;
  Ok (const_iterator2.it2_ x <? const_iterator2.it2_ it).

End IteratorArithmetic.

(** ** Mutable iterators *)

(** The state of an [iterator1] and of an [iterator2]: as for the const
    iterators, with a reference to a container that may be written. *)
Module iterator1.
Record t : Type := make { container : nat; it1_ : Z; it2_ : Z }.
End iterator1.

Module iterator2.
Record t : Type := make { container : nat; it1_ : Z; it2_ : Z }.
End iterator2.

Section MutableIterators.
Variable w : positive.
Context {T : Type} `{EqDecision T}.

Abbreviation heap := (gmap nat (@toeplitz_matrix T)).

(** [operator *] of [iterator1]: the reference that the mutable element
    access of the container yields. *)
Definition iterator1_deref (h : heap) (it : iterator1.t) : outcome nat :=
  m ← container_ref h (iterator1.container it);
  at_ref w m (iterator1.it1_ it) (iterator1.it2_ it).

(** [*it = t] *)
Definition iterator1_assign (it : iterator1.t) (t : T) : stateful heap nat :=
  call (iterator1.container it)
    (assign_element w (iterator1.it1_ it) (iterator1.it2_ it) t).

(** [const_iterator1 (const iterator1& it)], the conversion. *)
Definition const_iterator1_of_iterator1 (it : iterator1.t) : const_iterator1.t :=
  const_iterator1.make (iterator1.container it) (iterator1.it1_ it) (iterator1.it2_ it).

(** [operator *] of [iterator2] *)
Definition iterator2_deref (h : heap) (it : iterator2.t) : outcome nat :=
  m ← container_ref h (iterator2.container it);
  at_ref w m (iterator2.it1_ it) (iterator2.it2_ it).

(** [*it = t] *)
Definition iterator2_assign (it : iterator2.t) (t : T) : stateful heap nat :=
  call (iterator2.container it)
    (assign_element w (iterator2.it1_ it) (iterator2.it2_ it) t).

(** [const_iterator2 (const iterator2& it)], the conversion. *)
Definition const_iterator2_of_iterator2 (it : iterator2.t) : const_iterator2.t :=
  const_iterator2.make (iterator2.container it) (iterator2.it1_ it) (iterator2.it2_ it).

End MutableIterators.

(** ** Sample matrices of integers *)

(** The 2x2 matrix with diagonals 1, 2, 3. *)
Definition two_by_two : @toeplitz_matrix Z := toeplitz_matrix_data 2 2 [1; 2; 3].

(** The 3x3 matrix with diagonals 5, 4, 1, 2, 3. *)
Definition three_by_three : @toeplitz_matrix Z :=
  toeplitz_matrix_data 3 3 [5; 4; 1; 2; 3].

(** A store with [two_by_two] at address 1 and [three_by_three] at
    address 2. *)
Definition two_objects : gmap nat (@toeplitz_matrix Z) :=
  <[1%nat := two_by_two]> (<[2%nat := three_by_three]> ∅).

(** * Properties *)

(** ** Size arithmetic *)

Section SizeFacts.
Variable w : positive.

Lemma modulus_pos : 0 < modulus w.
Proof. unfold modulus. apply Z.pow_pos_nonneg; lia. Qed.

Lemma wrap_representable z : representable w (wrap w z).
Proof. unfold representable, wrap. apply Z.mod_pos_bound, modulus_pos. Qed.

Lemma wrap_id z : representable w z -> wrap w z = z.
Proof. unfold representable, wrap. intros Hz. apply Z.mod_small, Hz. Qed.

Lemma wrap_wrap_add a b : wrap w (wrap w a + b) = wrap w (a + b).
Proof. unfold wrap. apply Zplus_mod_idemp_l. Qed.

Lemma wrap_wrap_sub a b : wrap w (wrap w a - b) = wrap w (a - b).
Proof. unfold wrap. apply Zminus_mod_idemp_l. Qed.

(** A wrapped difference of one less than zero is the largest size. *)
Lemma wrap_minus_one : wrap w (-1) = modulus w - 1.
Proof.
  pose proof modulus_pos as Hm. unfold wrap.
  symmetry. apply (Z.mod_unique_pos _ _ (-1)); lia.
Qed.

End SizeFacts.

(** ** The index mapping *)

Section Offset.
Variable w : positive.
Context {T : Type} `{EqDecision T}.
Implicit Types m : @toeplitz_matrix T.

(** Both subscript expressions are the same size value. *)
Lemma offset_branches m i j :
  size_add w (size_sub w (size_sub w (size1_ m) 1) i) j = wrap w (size1_ m - 1 - i + j) /\
  size_sub w (size_sub w (size_add w (size1_ m) j) i) 1 = wrap w (size1_ m - 1 - i + j).
Proof.
  unfold size_add, size_sub. split.
  - rewrite wrap_wrap_add.
    replace (wrap w (size1_ m - 1) - i + j) with (wrap w (size1_ m - 1) + (j - i)) by lia.
    rewrite wrap_wrap_add. f_equal. lia.
  - rewrite wrap_wrap_sub.
    replace (wrap w (size1_ m + j) - i - 1) with (wrap w (size1_ m + j) - (i + 1)) by lia.
    rewrite wrap_wrap_sub. f_equal. lia.
Qed.

Lemma offset_wrap m i j : offset w m i j = wrap w (size1_ m - 1 - i + j).
Proof.
  unfold offset. destruct (offset_branches m i j) as [Hge Hlt].
  destruct (i >=? j); assumption.
Qed.

(** For indices in range no operation of the subscript wraps. *)
Lemma offset_exact m i j :
  representable w (size1_ m + size2_ m - 1) ->
  0 <= i < size1_ m -> 0 <= j < size2_ m ->
  offset w m i j = size1_ m - 1 - i + j.
Proof.
  intros Hs Hi Hj. rewrite offset_wrap. apply wrap_id.
  unfold representable in *. lia.
Qed.

(** C1: for a matrix with [size1_ > 0] and [size2_ > 0] whose number of
    diagonals [size1_ + size2_ - 1] is a size value, and for every index pair
    [i < size1_], [j < size2_]: the two branches of the subscript computation
    give the same value [size1_ - 1 - i + j]; that offset lies in
    [[0, size1_ + size2_ - 1)]; every value of that range is the offset of
    some valid pair; and two valid pairs have the same offset exactly when
    they lie on the same diagonal ([i - j = i' - j']). *)
Theorem offset_diagonal_bijection m :
  0 < size1_ m -> 0 < size2_ m ->
  representable w (size1_ m + size2_ m - 1) ->
  (forall i j, 0 <= i < size1_ m -> 0 <= j < size2_ m ->
     size_add w (size_sub w (size_sub w (size1_ m) 1) i) j = size1_ m - 1 - i + j /\
     size_sub w (size_sub w (size_add w (size1_ m) j) i) 1 = size1_ m - 1 - i + j /\
     offset w m i j = size1_ m - 1 - i + j /\
     0 <= offset w m i j < size1_ m + size2_ m - 1) /\
  (forall k, 0 <= k < size1_ m + size2_ m - 1 ->
     exists i j, 0 <= i < size1_ m /\ 0 <= j < size2_ m /\ offset w m i j = k) /\
  (forall i j i' j',
     0 <= i < size1_ m -> 0 <= j < size2_ m ->
     0 <= i' < size1_ m -> 0 <= j' < size2_ m ->
     (offset w m i j = offset w m i' j' <-> i - j = i' - j')).
Proof.
  intros H1 H2 Hs. split; [|split].
  - intros i j Hi Hj.
    destruct (offset_branches m i j) as [Hge Hlt].
    pose proof (offset_exact m i j Hs Hi Hj) as He.
    rewrite offset_wrap in He.
    rewrite Hge, Hlt, offset_wrap, He. lia.
  - intros k Hk.
    destruct (Z_lt_le_dec k (size1_ m)) as [Hlow | Hhigh].
    + exists (size1_ m - 1 - k), 0.
      split; [lia | split; [lia |]].
      rewrite offset_exact by (assumption || lia). lia.
    + exists 0, (k - (size1_ m - 1)).
      split; [lia | split; [lia |]].
      rewrite offset_exact by (assumption || lia). lia.
  - intros i j i' j' Hi Hj Hi' Hj'.
    rewrite !offset_exact by assumption. lia.
Qed.

End Offset.

(** ** Element access and diagonal aliasing *)

Section Access.
Variable w : positive.
Context {T : Type} `{EqDecision T}.
Variable zero : T.
Implicit Types m : @toeplitz_matrix T.

Lemma check_true (c : bool) e : c = true -> BOOST_UBLAS_CHECK c e = Ok tt.
Proof. intros ->. reflexivity. Qed.

Lemma check_false (c : bool) e : c = false -> BOOST_UBLAS_CHECK c e = Raise e.
Proof. intros ->. reflexivity. Qed.

Lemma array_ref_ok (a : list T) k :
  0 <= k < array_size a -> array_ref a k = Ok (Z.to_nat k).
Proof.
  intros Hk. unfold array_ref.
  rewrite check_true by (apply Z.ltb_lt; lia). reflexivity.
Qed.

Lemma well_formed_diagonals m :
  well_formed w m -> representable w (size1_ m + size2_ m - 1).
Proof. intros (_ & _ & Hd & Hlen). rewrite <- Hlen. exact Hd. Qed.

(** The mutable overload yields the slot of the diagonal through [(i, j)]. *)
Lemma at_ref_ok m i j :
  well_formed w m -> 0 <= i < size1_ m -> 0 <= j < size2_ m ->
  at_ref w m i j = Ok (Z.to_nat (size1_ m - 1 - i + j)).
Proof.
  intros Hwf Hi Hj. pose proof Hwf as (_ & _ & _ & Hlen).
  unfold at_ref.
  rewrite !check_true by (apply Z.ltb_lt; lia). cbn.
  rewrite offset_exact by (auto using well_formed_diagonals).
  apply array_ref_ok. unfold data. lia.
Qed.

(** The const overload reads that slot. *)
Lemma at_const_load m i j :
  array_size (data_ m) = size1_ m + size2_ m - 1 ->
  representable w (size1_ m + size2_ m - 1) ->
  0 <= i < size1_ m -> 0 <= j < size2_ m ->
  at_const w m i j = array_load (data_ m) (Z.to_nat (size1_ m - 1 - i + j)).
Proof.
  intros Hlen Hd Hi Hj. unfold at_const.
  rewrite !check_true by (apply Z.ltb_lt; lia). cbn.
  rewrite offset_exact by assumption.
  unfold array_at, data. rewrite array_ref_ok by lia. reflexivity.
Qed.

Lemma array_load_store_eq (a : list T) r t :
  (r < length a)%nat -> array_load (array_store a r t) r = Ok t.
Proof.
  intros Hr. unfold array_load, array_store.
  rewrite list_lookup_insert_eq by assumption. reflexivity.
Qed.

Lemma array_load_store_ne (a : list T) r r' t :
  r <> r' -> array_load (array_store a r t) r' = array_load a r'.
Proof.
  intros Hr. unfold array_load, array_store.
  rewrite list_lookup_insert_ne by assumption. reflexivity.
Qed.

(** What an element assignment does to the object. *)
Lemma assign_element_ok m i j t :
  well_formed w m -> 0 <= i < size1_ m -> 0 <= j < size2_ m ->
  assign_element w i j t m =
    ({| data_ := array_store (data_ m) (Z.to_nat (size1_ m - 1 - i + j)) t;
        size1_ := size1_ m; size2_ := size2_ m |},
     Ok (Z.to_nat (size1_ m - 1 - i + j))).
Proof.
  intros Hwf Hi Hj. unfold assign_element.
  cbv [mbind stateful_bind load pure id].
  rewrite at_ref_ok by assumption. reflexivity.
Qed.

(** C2: on a matrix that satisfies the representation invariant, for every
    valid pair [(i, j)], the element assignment [set (i, j, v)] (the mutable
    [operator ()] followed by an assignment, or [insert_element]) succeeds,
    keeps the dimensions, makes [get (i', j')] return [v] for every valid
    pair on the diagonal of [(i, j)], and leaves [get (i', j')] as it was for
    every valid pair on another diagonal. *)
Theorem insert_element_diagonal m i j v :
  well_formed w m -> 0 <= i < size1_ m -> 0 <= j < size2_ m ->
  exists m' r,
    insert_element w i j v m = (m', Ok r) /\
    assign_element w i j v m = (m', Ok r) /\
    size1_ m' = size1_ m /\ size2_ m' = size2_ m /\
    forall i' j', 0 <= i' < size1_ m -> 0 <= j' < size2_ m ->
      (i' - j' = i - j -> at_const w m' i' j' = Ok v) /\
      (i' - j' <> i - j -> at_const w m' i' j' = at_const w m i' j').
Proof.
  intros Hwf Hi Hj. pose proof Hwf as (_ & _ & _ & Hlen).
  pose proof (well_formed_diagonals m Hwf) as Hd.
  eexists _, _. unfold insert_element.
  rewrite assign_element_ok by assumption.
  split; [reflexivity | split; [reflexivity | split; [reflexivity | split; [reflexivity |]]]].
  intros i' j' Hi' Hj'. cbn [data_ size1_ size2_].
  unfold array_size in Hlen.
  rewrite at_const_load; cbn [data_ size1_ size2_];
    [ | unfold array_size, array_store; rewrite length_insert; assumption
      | assumption | assumption | assumption ].
  rewrite (at_const_load m i' j') by assumption.
  split; intros Hdiag.
  - replace (size1_ m - 1 - i' + j') with (size1_ m - 1 - i + j) by lia.
    apply array_load_store_eq. lia.
  - apply array_load_store_ne. lia.
Qed.

End Access.

(** ** Construction from a first row and a first column *)

Section Seeded.
Variable w : positive.
Context {T : Type} `{EqDecision T}.
Variable zero : T.
Implicit Types (m : @toeplitz_matrix T) (row column src dst : list T).

(** A copy that fits replaces the slots from [pos] on. *)
Lemma std_copy_fits src : forall dst pos,
  (pos + length src <= length dst)%nat ->
  std_copy src dst pos = Ok (take pos dst ++ src ++ drop (pos + length src) dst).
Proof.
  induction src as [|x src IH]; intros dst pos Hfit; simpl in *.
  - rewrite Nat.add_0_r, take_drop. reflexivity.
  - destruct (decide (pos < length dst)%nat) as [Hpos|]; [|lia].
    rewrite IH by (rewrite length_insert; lia). f_equal.
    rewrite (take_S_r _ _ x) by (apply list_lookup_insert_eq, Hpos).
    rewrite take_insert_ge by lia.
    rewrite drop_insert_lt by lia.
    rewrite <- app_assoc. simpl.
    replace (pos + S (length src))%nat with (S (pos + length src)) by lia.
    reflexivity.
Qed.

Lemma array_at_head x row : array_at (x :: row) 0 = Ok x.
Proof.
  unfold array_at. rewrite array_ref_ok by (unfold array_size; simpl; lia).
  reflexivity.
Qed.

(** The allocation of the storage: it succeeds for every request but the
    largest size value. *)
Lemma unbounded_array_ok n :
  allocatable w n -> unbounded_array w zero n = Ok (default_elements zero n).
Proof.
  unfold allocatable, unbounded_array. intros Hn.
  rewrite (proj2 (Z.eqb_neq _ _) Hn). reflexivity.
Qed.

Lemma unbounded_array_fails n :
  n = modulus w - 1 -> unbounded_array w zero n = Raise bad_alloc.
Proof. intros ->. unfold unbounded_array. rewrite Z.eqb_refl. reflexivity. Qed.

(** The request of the constructors, when it does not wrap. *)
Lemma request_exact a b :
  representable w (a + b - 1) -> size_sub w (size_add w a b) 1 = a + b - 1.
Proof.
  intros Hrep. unfold size_sub, size_add.
  rewrite wrap_wrap_sub. apply wrap_id, Hrep.
Qed.

(** The storage a successful construction builds: the column reversed, then
    the row without its first element. *)
Lemma row_column_ok row column x :
  row !! 0%nat = Some x -> column !! 0%nat = Some x ->
  representable w (array_size row + array_size column - 1) ->
  allocatable w (array_size row + array_size column - 1) ->
  toeplitz_matrix_row_column w zero row column =
    Ok {| data_ := reverse column ++ drop 1 row;
          size1_ := array_size column; size2_ := array_size row |}.
Proof.
  intros Hr Hc Hrep Halloc.
  destruct row as [|r0 row]; [discriminate|].
  destruct column as [|c0 column]; [discriminate|].
  simpl in Hr, Hc. injection Hr as ->. injection Hc as ->.
  unfold toeplitz_matrix_row_column.
  rewrite request_exact by exact Hrep.
  rewrite unbounded_array_ok by exact Halloc. cbn [mbind outcome_bind].
  rewrite !check_true by (unfold array_size; simpl; lia). cbn [mbind outcome_bind].
  rewrite !array_at_head. cbn [mbind outcome_bind].
  rewrite check_true by (apply bool_decide_eq_true; reflexivity). cbn [mbind outcome_bind].
  unfold default_elements, array_size in *. simpl length in *.
  set (n1 := length column) in *. set (n2 := length row) in *.
  replace (Z.to_nat (Z.of_nat (S n2) + Z.of_nat (S n1) - 1)) with (S n1 + n2)%nat by lia.
  rewrite std_copy_fits
    by (rewrite length_reverse, length_replicate; subst n1; simpl; lia).
  cbn [mbind outcome_bind]. rewrite length_reverse. simpl length. fold n1.
  rewrite drop_replicate_add. rewrite app_nil_l.
  rewrite Nat2Z.id. change (drop 1 (x :: row)) with row.
  rewrite std_copy_fits
    by (rewrite length_app, length_reverse, length_replicate; subst n1 n2; simpl; lia).
  cbn [mbind outcome_bind].
  rewrite take_app_length' by (rewrite length_reverse; reflexivity).
  rewrite drop_ge
    by (rewrite length_app, length_reverse, length_replicate; subst n1 n2; simpl; lia).
  rewrite app_nil_r. reflexivity.
Qed.

Lemma seeded_lookup_row row column x k y :
  row !! 0%nat = Some x -> column !! 0%nat = Some x -> row !! k = Some y ->
  (reverse column ++ drop 1 row) !! (length column - 1 + k)%nat = Some y.
Proof.
  intros Hr Hc Hk.
  assert (0 < length column)%nat as Hlen by (eapply lookup_lt_Some, Hc).
  destruct k as [|k].
  - rewrite lookup_app_l by (rewrite length_reverse; lia).
    rewrite reverse_lookup by lia.
    replace (length column - S (length column - 1 + 0))%nat with 0%nat by lia.
    congruence.
  - rewrite lookup_app_r by (rewrite length_reverse; lia).
    rewrite length_reverse, lookup_drop.
    replace (1 + (length column - 1 + S k - length column))%nat with (S k) by lia.
    exact Hk.
Qed.

Lemma seeded_lookup_column row column k y :
  column !! k = Some y ->
  (reverse column ++ drop 1 row) !! (length column - 1 - k)%nat = Some y.
Proof.
  intros Hk.
  assert (k < length column)%nat as Hlen by (eapply lookup_lt_Some, Hk).
  rewrite lookup_app_l by (rewrite length_reverse; lia).
  rewrite reverse_lookup by lia.
  replace (length column - S (length column - 1 - k))%nat with k by lia.
  exact Hk.
Qed.

(** Reading the first row and the first column of a seeded matrix. *)
Lemma row_column_reads row column x :
  row !! 0%nat = Some x -> column !! 0%nat = Some x ->
  representable w (array_size row + array_size column - 1) ->
  allocatable w (array_size row + array_size column - 1) ->
  exists m,
    toeplitz_matrix_row_column w zero row column = Ok m /\
    size1_ m = array_size column /\ size2_ m = array_size row /\
    data_ m = reverse column ++ drop 1 row /\
    (forall k y, row !! k = Some y -> at_const w m 0 (Z.of_nat k) = Ok y) /\
    (forall k y, column !! k = Some y -> at_const w m (Z.of_nat k) 0 = Ok y).
Proof.
  intros Hr Hc Hrep Halloc.
  eexists. split; [apply (row_column_ok _ _ x); assumption|].
  cbn [size1_ size2_ data_].
  assert (0 < length row)%nat as Hlr by (eapply lookup_lt_Some, Hr).
  assert (0 < length column)%nat as Hlc by (eapply lookup_lt_Some, Hc).
  assert (array_size (reverse column ++ drop 1 row) =
          array_size column + array_size row - 1) as Hlen.
  { unfold array_size. rewrite length_app, length_reverse, length_drop. lia. }
  assert (representable w (array_size column + array_size row - 1)) as Hrep'.
  { replace (array_size column + array_size row - 1)
      with (array_size row + array_size column - 1) by lia. exact Hrep. }
  split; [reflexivity | split; [reflexivity | split; [reflexivity | split]]].
  - intros k y Hk.
    assert (k < length row)%nat by (eapply lookup_lt_Some, Hk).
    rewrite at_const_load; cbn [size1_ size2_ data_];
      [ | assumption | assumption | unfold array_size; lia | unfold array_size; lia ].
    unfold array_load, array_size.
    replace (Z.to_nat (Z.of_nat (length column) - 1 - 0 + Z.of_nat k))
      with (length column - 1 + k)%nat by lia.
    rewrite (seeded_lookup_row _ _ x k y) by assumption. reflexivity.
  - intros k y Hk.
    assert (k < length column)%nat by (eapply lookup_lt_Some, Hk).
    rewrite at_const_load; cbn [size1_ size2_ data_];
      [ | assumption | assumption | unfold array_size; lia | unfold array_size; lia ].
    unfold array_load, array_size.
    replace (Z.to_nat (Z.of_nat (length column) - 1 - Z.of_nat k + 0))
      with (length column - 1 - k)%nat by lia.
    rewrite (seeded_lookup_column _ _ k y) by assumption. reflexivity.
Qed.

(** The allocation precedes the checks: a request that cannot be met ends
    the construction before any of them runs. *)
Lemma row_column_allocation_fails row column :
  size_sub w (size_add w (array_size row) (array_size column)) 1 = modulus w - 1 ->
  toeplitz_matrix_row_column w zero row column = Raise bad_alloc.
Proof.
  intros Hrequest. unfold toeplitz_matrix_row_column.
  rewrite unbounded_array_fails by exact Hrequest. reflexivity.
Qed.

(** Two empty sequences ask for the largest size value. *)
Lemma row_column_both_empty :
  toeplitz_matrix_row_column w zero [] [] = Raise bad_alloc.
Proof.
  apply row_column_allocation_fails.
  unfold size_sub, size_add, array_size. simpl.
  rewrite wrap_wrap_sub. apply wrap_minus_one.
Qed.

(** The three checks of the seeded constructor, once the storage is
    allocated. *)
Lemma row_column_rejects row column :
  allocatable w (size_sub w (size_add w (array_size row) (array_size column)) 1) ->
  row = [] \/ column = [] \/
  (exists x y, row !! 0%nat = Some x /\ column !! 0%nat = Some y /\ x <> y) ->
  toeplitz_matrix_row_column w zero row column = Raise external_logic.
Proof.
  intros Halloc Hbad. unfold toeplitz_matrix_row_column.
  rewrite unbounded_array_ok by exact Halloc. cbn [mbind outcome_bind].
  destruct row as [|r0 row].
  { reflexivity. }
  rewrite (check_true (negb (array_size (r0 :: row) =? 0)))
    by (unfold array_size; simpl; lia).
  cbn [mbind outcome_bind].
  destruct column as [|c0 column].
  { reflexivity. }
  rewrite (check_true (negb (array_size (c0 :: column) =? 0)))
    by (unfold array_size; simpl; lia).
  cbn [mbind outcome_bind]. rewrite !array_at_head. cbn [mbind outcome_bind].
  destruct Hbad as [Hbad | [Hbad | (x & y & Hx & Hy & Hne)]]; try discriminate.
  simpl in Hx, Hy. injection Hx as ->. injection Hy as ->.
  rewrite check_false by (apply bool_decide_eq_false; exact Hne).
  reflexivity.
Qed.

(** A request below a representable number can be allocated. *)
Lemma allocatable_below n k : n < k -> representable w k -> allocatable w n.
Proof. unfold allocatable, representable. lia. Qed.

(** The modulus is a power of two: above 5 it is at least 8. *)
Lemma modulus_above_5 : representable w 5 -> 8 <= modulus w.
Proof.
  unfold representable, modulus. intros [_ H5].
  destruct (Z_lt_le_dec (Z.pos w) 3) as [Hsmall | Hlarge].
  - assert (2 ^ Z.pos w <= 2 ^ 2) by (apply Z.pow_le_mono_r; lia).
    change (2 ^ 2) with 4 in *. lia.
  - change 8 with (2 ^ 3). apply Z.pow_le_mono_r; lia.
Qed.

End Seeded.

(** A size value given by a numeral, for a concrete width. *)
Ltac representable_numeral :=
  unfold representable, modulus, array_size; cbn [length];
  split; [lia | reflexivity].

(** Evaluates an element read on a matrix given by its members. *)
Ltac read_element :=
  rewrite at_const_load; cbn [size1_ size2_ data_];
  [ reflexivity | reflexivity | assumption | lia | lia ].

(** C3: for a row sequence [r] and a column sequence [c], both non-empty and
    with the same first element, whose diagonal count is a size value that
    the storage can be allocated with, the matrix constructed from [(r, c)] satisfies [get (0, k) = r [k]] for every
    [k] below the length of [r] and [get (k, 0) = c [k]] for every [k] below
    the length of [c].  In particular the 3x3 matrix built from row [1,2,3]
    and column [1,4,5] satisfies get(0,0)=1, get(1,0)=4, get(2,0)=5,
    get(0,1)=2, get(0,2)=3, get(1,1)=1, get(2,2)=1, get(1,2)=2, get(2,1)=4. *)
Theorem row_column_round_trip :
  (forall (w : positive) (T : Type) (dec : EqDecision T) (zero : T)
          (r c : list T) (x : T),
     r !! 0%nat = Some x -> c !! 0%nat = Some x ->
     representable w (array_size r + array_size c - 1) ->
     allocatable w (array_size r + array_size c - 1) ->
     exists m,
       toeplitz_matrix_row_column w zero r c = Ok m /\
       size1_ m = array_size c /\ size2_ m = array_size r /\
       (forall k y, r !! k = Some y -> at_const w m 0 (Z.of_nat k) = Ok y) /\
       (forall k y, c !! k = Some y -> at_const w m (Z.of_nat k) 0 = Ok y)) /\
  (forall w : positive, representable w 5 ->
     exists m,
       toeplitz_matrix_row_column w 0 [1; 2; 3] [1; 4; 5] = Ok m /\
       size1_ m = 3 /\ size2_ m = 3 /\
       at_const w m 0 0 = Ok 1 /\ at_const w m 1 0 = Ok 4 /\
       at_const w m 2 0 = Ok 5 /\ at_const w m 0 1 = Ok 2 /\
       at_const w m 0 2 = Ok 3 /\ at_const w m 1 1 = Ok 1 /\
       at_const w m 2 2 = Ok 1 /\ at_const w m 1 2 = Ok 2 /\
       at_const w m 2 1 = Ok 4).
Proof.
  split.
  - intros w T dec zero r c x Hr Hc Hrep Halloc.
    destruct (row_column_reads w zero r c x Hr Hc Hrep Halloc)
      as (m & Hm & H1 & H2 & _ & Hrow & Hcol).
    exists m. auto.
  - intros w Hrep. eexists. split.
    { apply (row_column_ok w 0 [1; 2; 3] [1; 4; 5] 1);
        [reflexivity | reflexivity | exact Hrep |].
      pose proof (modulus_above_5 w Hrep) as H8.
      unfold allocatable, array_size. simpl. lia. }
    change (reverse [1; 4; 5] ++ drop 1 [1; 2; 3]) with [5; 4; 1; 2; 3].
    change (array_size [1; 4; 5]) with 3. change (array_size [1; 2; 3]) with 3.
    cbn [size1_ size2_].
    split; [reflexivity|]. split; [reflexivity|].
    do 8 (split; [read_element|]).
    read_element.
Qed.

Lemma row_column_round_trip_witness :
  (representable 64 (array_size [7; 8] + array_size [7; 9] - 1) /\
   allocatable 64 (array_size [7; 8] + array_size [7; 9] - 1)) /\
  exists m,
    toeplitz_matrix_row_column 64 0 [7; 8] [7; 9] = Ok m /\
    at_const 64 m 0 1 = Ok 8 /\ at_const 64 m 1 0 = Ok 9.
Proof.
  assert (representable 64 (array_size [7; 8] + array_size [7; 9] - 1)) as Hrep
    by representable_numeral.
  assert (allocatable 64 (array_size [7; 8] + array_size [7; 9] - 1)) as Halloc
    by discriminate.
  split; [auto|].
  destruct (proj1 row_column_round_trip 64%positive Z _ 0 [7; 8] [7; 9] 7
              eq_refl eq_refl Hrep Halloc) as (m & Hm & _ & _ & Hrow & Hcol).
  exists m. split; [exact Hm | split].
  - apply (Hrow 1%nat). reflexivity.
  - apply (Hcol 1%nat). reflexivity.
Defined.

(** C4: the construction from two empty sequences does not raise
    [external_logic]: the initialiser of [data_] asks for [0 + 0 - 1], the
    largest size value, before the checks run, and the construction ends in
    the allocation with [bad_alloc].  For every other pair of sequences,
    once the storage is allocated, the construction raises [external_logic],
    the construction invariant violation, and so yields no matrix, whenever
    either sequence is empty or their first elements differ; in particular
    the construction from row [1,2] and column [9,4] raises it. *)
Theorem row_column_invariant_violation :
  (forall (w : positive) (T : Type) (dec : EqDecision T) (zero : T),
     toeplitz_matrix_row_column w zero [] [] = Raise bad_alloc) /\
  (forall (w : positive) (T : Type) (dec : EqDecision T) (zero : T) (r c : list T),
     allocatable w (size_sub w (size_add w (array_size r) (array_size c)) 1) ->
     r = [] \/ c = [] \/
     (exists x y, r !! 0%nat = Some x /\ c !! 0%nat = Some y /\ x <> y) ->
     toeplitz_matrix_row_column w zero r c = Raise external_logic) /\
  (forall w : positive, representable w 4 ->
     toeplitz_matrix_row_column w 0 [1; 2] [9; 4] = Raise external_logic).
Proof.
  split; [|split].
  - intros w T dec zero. apply row_column_both_empty.
  - intros w T dec zero r c Halloc Hbad. apply row_column_rejects; assumption.
  - intros w Hrep. apply row_column_rejects.
    + rewrite request_exact
        by (unfold representable, array_size in *; simpl; lia).
      apply (allocatable_below w _ 4); [unfold array_size; simpl; lia | exact Hrep].
    + right. right.
      exists 1, 9. split; [reflexivity | split; [reflexivity | lia]].
Qed.

Lemma row_column_invariant_violation_witness :
  (allocatable 64 (size_sub 64 (size_add 64 (array_size (@nil Z)) (array_size [7])) 1) /\
   ([] = @nil Z \/ [7] = @nil Z \/
    (exists x y, @nil Z !! 0%nat = Some x /\ [7] !! 0%nat = Some y /\ x <> y))) /\
  toeplitz_matrix_row_column 64 0 [] [7] = Raise external_logic.
Proof.
  assert (allocatable 64
            (size_sub 64 (size_add 64 (array_size (@nil Z)) (array_size [7])) 1))
    as Halloc by discriminate.
  assert ([] = @nil Z \/ [7] = @nil Z \/
          (exists x y, @nil Z !! 0%nat = Some x /\ [7] !! 0%nat = Some y /\ x <> y))
    as Hbad by (left; reflexivity).
  split; [auto|].
  exact (proj1 (proj2 row_column_invariant_violation) 64%positive Z _ 0 [] [7]
           Halloc Hbad).
Defined.

(** ** Resizing *)

Section Resize.
Variable w : positive.
Context {T : Type} `{EqDecision T}.
Variable zero : T.
Implicit Types m : @toeplitz_matrix T.

(** The preserving resize fails before it writes anything. *)
Lemma resize_preserve_fails m size1 size2 :
  size_add w size1 size2 <> size_add w (size1_ m) (size2_ m) ->
  resize w zero size1 size2 true m = (m, Raise external_logic).
Proof.
  intros Hne. unfold resize. cbv [mbind stateful_bind load pure].
  rewrite check_false by (apply Z.eqb_neq, Hne). reflexivity.
Qed.

Lemma resize_preserve_succeeds m size1 size2 :
  size_add w size1 size2 = size_add w (size1_ m) (size2_ m) ->
  resize w zero size1 size2 true m =
    ({| data_ := data_ m; size1_ := size1; size2_ := size2 |}, Ok tt).
Proof.
  intros Heq. unfold resize. cbv [mbind stateful_bind load pure].
  rewrite check_true by (apply Z.eqb_eq, Heq). reflexivity.
Qed.

(** The resize without preservation sets both dimensions, then replaces the
    storage. *)
Lemma resize_discard m size1 size2 :
  allocatable w (size_sub w (size_add w size1 size2) 1) ->
  resize w zero size1 size2 false m =
    ({| data_ := default_elements zero (size_sub w (size_add w size1 size2) 1);
        size1_ := size1; size2_ := size2 |}, Ok tt).
Proof.
  intros Halloc. unfold resize, array_resize.
  cbv [mbind stateful_bind load pure store_size1_ store_size2_ store_data_].
  cbn [data_ size1_ size2_].
  rewrite (unbounded_array_ok w zero) by exact Halloc. reflexivity.
Qed.

(** When the storage cannot be allocated the dimensions are already set and
    the storage is the old one. *)
Lemma resize_discard_fails m size1 size2 :
  size_sub w (size_add w size1 size2) 1 = modulus w - 1 ->
  resize w zero size1 size2 false m =
    ({| data_ := data_ m; size1_ := size1; size2_ := size2 |}, Raise bad_alloc).
Proof.
  intros Hrequest. unfold resize, array_resize.
  cbv [mbind stateful_bind load pure store_size1_ store_size2_ store_data_].
  cbn [data_ size1_ size2_].
  rewrite (unbounded_array_fails w zero) by exact Hrequest. reflexivity.
Qed.

(** C5: [resize (size1, size2, true)] raises [external_logic], the dimension
    mismatch, and leaves the object as it was (its dimensions, its storage
    and so every element value) whenever [size1 + size2] differs from
    [size1_ + size2_]; when the two sums are equal it succeeds, sets the new
    dimensions and keeps the storage, whose values are then read under the
    new dimensions.  The sums are those of the size type; for sums that do
    not overflow they are the sums of the integers. *)
Theorem resize_preserve_all_or_nothing m size1 size2 :
  (size_add w size1 size2 <> size_add w (size1_ m) (size2_ m) ->
     resize w zero size1 size2 true m = (m, Raise external_logic)) /\
  (size_add w size1 size2 = size_add w (size1_ m) (size2_ m) ->
     exists m',
       resize w zero size1 size2 true m = (m', Ok tt) /\
       size1_ m' = size1 /\ size2_ m' = size2 /\ data_ m' = data_ m /\
       forall i j, 0 <= i < size1 -> 0 <= j < size2 ->
         at_const w m' i j = array_at (data_ m) (wrap w (size1 - 1 - i + j))) /\
  (representable w (size1 + size2) -> representable w (size1_ m + size2_ m) ->
     (size1 + size2 <> size1_ m + size2_ m ->
        resize w zero size1 size2 true m = (m, Raise external_logic)) /\
     (size1 + size2 = size1_ m + size2_ m ->
        resize w zero size1 size2 true m =
          ({| data_ := data_ m; size1_ := size1; size2_ := size2 |}, Ok tt))).
Proof.
  split; [|split].
  - apply resize_preserve_fails.
  - intros Heq. eexists. split; [apply resize_preserve_succeeds, Heq|].
    cbn [size1_ size2_ data_].
    split; [reflexivity | split; [reflexivity | split; [reflexivity|]]].
    intros i j Hi Hj. unfold at_const.
    rewrite !check_true by (apply Z.ltb_lt; cbn [size1_ size2_]; lia).
    cbn [mbind outcome_bind]. rewrite offset_wrap. reflexivity.
  - intros Hnew Hold. unfold size_add in *.
    split; intros Hsum.
    + apply resize_preserve_fails. unfold size_add.
      rewrite !wrap_id by assumption. exact Hsum.
    + apply resize_preserve_succeeds. unfold size_add.
      rewrite Hsum. reflexivity.
Qed.

End Resize.

(** ** Assignment, copy and swap *)

Section ObjectFacts.
Variable w : positive.
Context {T : Type} `{EqDecision T}.
Implicit Types (m : @toeplitz_matrix T) (h : gmap nat (@toeplitz_matrix T)).

Lemma read_ok {A} h p m (x : @toeplitz_matrix T -> A) :
  h !! p = Some m -> read p x h = (h, Ok (x m)).
Proof. intros Hp. unfold read. rewrite Hp. reflexivity. Qed.

Lemma call_ok {A} h p m (f : stateful (@toeplitz_matrix T) A) m' r :
  h !! p = Some m -> f m = (m', r) -> call p f h = (<[p := m']> h, r).
Proof. intros Hp Hf. unfold call. rewrite Hp, Hf. reflexivity. Qed.

Lemma bind_ok {S A B} (x : stateful S A) (f : A -> stateful S B) s s' a :
  x s = (s', Ok a) -> (x ≫= f) s = f a s'.
Proof. intros Hx. cbv [mbind stateful_bind]. rewrite Hx. reflexivity. Qed.

(** Matrices are determined by their three members. *)
Lemma toeplitz_matrix_eta m :
  {| data_ := data_ m; size1_ := size1_ m; size2_ := size2_ m |} = m.
Proof. destruct m. reflexivity. Qed.

(** Copy assignment between two distinct objects. *)
Lemma assign_distinct h this other ma mb :
  this <> other -> h !! this = Some ma -> h !! other = Some mb ->
  assign this other h = (<[this := mb]> h, Ok this).
Proof.
  intros Hne Ha Hb. unfold assign.
  rewrite (bind_ok _ _ _ _ _ (read_ok _ _ _ _ Hb)).
  erewrite bind_ok; [|eapply call_ok; [exact Ha | reflexivity]].
  erewrite bind_ok;
    [|apply read_ok; rewrite lookup_insert_ne by assumption; exact Hb].
  erewrite bind_ok; [|eapply call_ok; [apply lookup_insert_eq | reflexivity]].
  erewrite bind_ok;
    [|apply read_ok; rewrite !lookup_insert_ne by assumption; exact Hb].
  erewrite bind_ok; [|eapply call_ok; [apply lookup_insert_eq | reflexivity]].
  unfold data. cbn [data_ size1_ size2_].
  rewrite !insert_insert_eq, toeplitz_matrix_eta. reflexivity.
Qed.

(** Self-assignment writes every member back. *)
Lemma assign_self h this m :
  h !! this = Some m -> assign this this h = (h, Ok this).
Proof.
  intros Ha. unfold assign.
  rewrite (bind_ok _ _ _ _ _ (read_ok _ _ _ _ Ha)).
  erewrite bind_ok; [|eapply call_ok; [exact Ha | reflexivity]].
  erewrite bind_ok; [|apply read_ok; apply lookup_insert_eq].
  erewrite bind_ok; [|eapply call_ok; [apply lookup_insert_eq | reflexivity]].
  erewrite bind_ok; [|apply read_ok; apply lookup_insert_eq].
  erewrite bind_ok; [|eapply call_ok; [apply lookup_insert_eq | reflexivity]].
  unfold data. cbn [data_ size1_ size2_].
  rewrite !insert_insert_eq, toeplitz_matrix_eta.
  rewrite insert_id by exact Ha. reflexivity.
Qed.

(** After [a = b] the object [a] has the dimensions and the element values
    of [b], and [b] is as it was. *)
Lemma assign_copies h a b ma mb :
  h !! a = Some ma -> h !! b = Some mb ->
  exists h',
    assign a b h = (h', Ok a) /\ h' !! a = Some mb /\ h' !! b = Some mb /\
    forall p, p <> a -> h' !! p = h !! p.
Proof.
  intros Ha Hb. destruct (decide (a = b)) as [->|Hne].
  - assert (ma = mb) as -> by congruence.
    exists h. rewrite (assign_self _ _ _ Hb). auto.
  - exists (<[a := mb]> h). rewrite (assign_distinct _ _ _ _ _ Hne Ha Hb).
    split; [reflexivity | split; [apply lookup_insert_eq | split]].
    + rewrite lookup_insert_ne by assumption. exact Hb.
    + intros p Hp. apply lookup_insert_ne. congruence.
Qed.

(** The storage is copied, not shared: a later element assignment to [a]
    leaves [b] as it was. *)
Lemma assign_then_mutate h a b ma mb i j v :
  a <> b -> h !! a = Some ma -> h !! b = Some mb ->
  exists h' h'' r,
    assign a b h = (h', Ok a) /\
    call a (insert_element w i j v) h' = (h'', r) /\
    h'' !! b = Some mb.
Proof.
  intros Hne Ha Hb.
  rewrite (assign_distinct _ _ _ _ _ Hne Ha Hb).
  destruct (insert_element w i j v mb) as [m' r] eqn:Hins.
  exists (<[a := mb]> h), (<[a := m']> (<[a := mb]> h)), r.
  split; [reflexivity | split].
  - apply (call_ok _ _ mb); [apply lookup_insert_eq | exact Hins].
  - rewrite !lookup_insert_ne by assumption. exact Hb.
Qed.

(** [std::swap] on one member of two distinct objects. *)
Lemma std_swap_distinct {A} (x : @toeplitz_matrix T -> A)
    (store_x : A -> stateful (@toeplitz_matrix T) unit)
    (update : A -> @toeplitz_matrix T -> @toeplitz_matrix T) h this other ma mb :
  (forall v m, store_x v m = (update v m, Ok tt)) ->
  this <> other -> h !! this = Some ma -> h !! other = Some mb ->
  std_swap x store_x this other h =
    (<[other := update (x ma) mb]> (<[this := update (x mb) ma]> h), Ok tt).
Proof.
  intros Hstore Hne Ha Hb. unfold std_swap.
  rewrite (bind_ok _ _ _ _ _ (read_ok _ _ _ _ Ha)).
  rewrite (bind_ok _ _ _ _ _ (read_ok _ _ _ _ Hb)).
  erewrite bind_ok; [|eapply call_ok; [exact Ha | apply Hstore]].
  eapply call_ok; [|apply Hstore].
  rewrite lookup_insert_ne by assumption. exact Hb.
Qed.

(** The swap of two distinct objects. *)
Lemma swap_distinct h this other ma mb :
  this <> other -> h !! this = Some ma -> h !! other = Some mb ->
  swap this other h = (<[other := ma]> (<[this := mb]> h), Ok tt).
Proof.
  intros Hne Ha Hb. unfold swap.
  destruct (decide (this ≠ other)) as [_|Heq]; [|contradiction].
  erewrite bind_ok;
    [|apply (std_swap_distinct size1_ store_size1_
               (fun v m => {| data_ := data_ m; size1_ := v; size2_ := size2_ m |}));
      [reflexivity | exact Hne | exact Ha | exact Hb]].
  erewrite bind_ok;
    [|apply (std_swap_distinct size2_ store_size2_
               (fun v m => {| data_ := data_ m; size1_ := size1_ m; size2_ := v |}));
      [ reflexivity | exact Hne
      | rewrite lookup_insert_ne by congruence; apply lookup_insert_eq
      | apply lookup_insert_eq ]].
  erewrite (std_swap_distinct data store_data_
              (fun v m => {| data_ := v; size1_ := size1_ m; size2_ := size2_ m |}));
    [ | reflexivity | exact Hne
      | rewrite lookup_insert_ne by congruence; apply lookup_insert_eq
      | apply lookup_insert_eq ].
  unfold data. cbn [data_ size1_ size2_]. f_equal.
  rewrite !toeplitz_matrix_eta.
  apply map_eq. intros p.
  destruct (decide (p = other)) as [->|Hpo].
  - rewrite !lookup_insert_eq. reflexivity.
  - rewrite !(lookup_insert_ne _ other p) by congruence.
    destruct (decide (p = this)) as [->|Hpt].
    + rewrite !lookup_insert_eq. reflexivity.
    + repeat first [ rewrite (lookup_insert_ne _ other p) by congruence
                   | rewrite (lookup_insert_ne _ this p) by congruence ].
      reflexivity.
Qed.

Lemma swap_self h this : swap this this h = (h, Ok tt).
Proof.
  unfold swap. destruct (decide (this ≠ this)) as [Hne|_]; [contradiction|].
  reflexivity.
Qed.

End ObjectFacts.

(** C7: the copy constructor, whose initialiser of [size2_] reads the member
    [size_2] that the class does not have, is ill-formed for every argument:
    it builds no object, so a copy-constructed matrix with the rows, columns
    and element values of its argument does not exist.  (Copy assignment
    does what the claim says: [assign_copies], [assign_then_mutate].) *)
Theorem copy_constructor_ill_formed :
  forall (T : Type) (m : @toeplitz_matrix T), toeplitz_matrix_copy m = None.
Proof. intros T m. reflexivity. Qed.

(** C8: [swap (a, b)] on two distinct matrices succeeds and exchanges their
    whole state: afterwards [a] holds the former dimensions and storage of
    [b], hence all its former element values, [b] holds those of [a], and
    no other object changes.  [swap (a, a)] leaves the store of objects as
    it was. *)
Theorem swap_exchanges :
  forall (T : Type) (h : gmap nat (@toeplitz_matrix T)) (a b : nat)
         (ma mb : @toeplitz_matrix T),
  h !! a = Some ma -> h !! b = Some mb ->
  (a <> b ->
     exists h',
       swap_friend a b h = (h', Ok tt) /\ swap a b h = (h', Ok tt) /\
       h' !! a = Some mb /\ h' !! b = Some ma /\
       (forall p, p <> a -> p <> b -> h' !! p = h !! p)) /\
  swap_friend a a h = (h, Ok tt) /\ swap a a h = (h, Ok tt).
Proof.
  intros T h a b ma mb Ha Hb. split; [|split; apply swap_self].
  intros Hne. exists (<[b := ma]> (<[a := mb]> h)).
  unfold swap_friend. rewrite (swap_distinct h a b ma mb Hne Ha Hb).
  split; [reflexivity | split; [reflexivity | split; [|split]]].
  - rewrite lookup_insert_ne by congruence. apply lookup_insert_eq.
  - apply lookup_insert_eq.
  - intros p Hpa Hpb. rewrite !lookup_insert_ne by congruence. reflexivity.
Qed.

(** ** Traversal *)

Section Traversal.
Variable w : positive.
Context {T : Type} `{EqDecision T}.
Implicit Types (m : @toeplitz_matrix T) (h : gmap nat (@toeplitz_matrix T)).

Lemma size_succ i n : 0 <= i < n -> representable w n -> size_add w i 1 = i + 1.
Proof.
  intros Hi Hn. unfold size_add. apply wrap_id.
  unfold representable in *. lia.
Qed.

(** The loop from index [i] to index [n] along axis 1 visits the [n - i]
    positions in between, when it is given enough iterations. *)
Lemma const_iterator1_range_steps p j n :
  representable w n ->
  forall (k : nat) i fuel, 0 <= i -> i + Z.of_nat k = n -> (k < fuel)%nat ->
  const_iterator1_range w fuel (const_iterator1.make p i j) (const_iterator1.make p n j) =
    Some (Ok (map (fun i' => const_iterator1.make p i' j) (seqZ i (Z.of_nat k)))).
Proof.
  intros Hn. induction k as [|k IH]; intros i fuel Hi Hk Hfuel;
    (destruct fuel as [|fuel]; [lia|]); simpl const_iterator1_range;
    unfold const_iterator1_eq; cbn [const_iterator1.container
      const_iterator1.it1_ const_iterator1.it2_];
    rewrite bool_decide_eq_true_2 by reflexivity; rewrite Z.eqb_refl;
    cbn [BOOST_UBLAS_CHECK mbind outcome_bind].
  - replace i with n by lia. rewrite Z.eqb_refl. reflexivity.
  - rewrite (proj2 (Z.eqb_neq i n)) by lia.
    unfold const_iterator1_incr. cbn [const_iterator1.container
      const_iterator1.it1_ const_iterator1.it2_].
    rewrite (size_succ i n) by (assumption || lia).
    rewrite IH by lia.
    rewrite (seqZ_cons i (Z.of_nat (S k))) by lia.
    replace (Z.pred (Z.of_nat (S k))) with (Z.of_nat k) by lia.
    reflexivity.
Qed.

Lemma const_iterator2_range_steps p i n :
  representable w n ->
  forall (k : nat) j fuel, 0 <= j -> j + Z.of_nat k = n -> (k < fuel)%nat ->
  const_iterator2_range w fuel (const_iterator2.make p i j) (const_iterator2.make p i n) =
    Some (Ok (map (fun j' => const_iterator2.make p i j') (seqZ j (Z.of_nat k)))).
Proof.
  intros Hn. induction k as [|k IH]; intros j fuel Hj Hk Hfuel;
    (destruct fuel as [|fuel]; [lia|]); simpl const_iterator2_range;
    unfold const_iterator2_eq; cbn [const_iterator2.container
      const_iterator2.it1_ const_iterator2.it2_];
    rewrite bool_decide_eq_true_2 by reflexivity; rewrite Z.eqb_refl;
    cbn [BOOST_UBLAS_CHECK mbind outcome_bind].
  - replace j with n by lia. rewrite Z.eqb_refl. reflexivity.
  - rewrite (proj2 (Z.eqb_neq j n)) by lia.
    unfold const_iterator2_incr. cbn [const_iterator2.container
      const_iterator2.it1_ const_iterator2.it2_].
    rewrite (size_succ j n) by (assumption || lia).
    rewrite IH by lia.
    rewrite (seqZ_cons j (Z.of_nat (S k))) by lia.
    replace (Z.pred (Z.of_nat (S k))) with (Z.of_nat k) by lia.
    reflexivity.
Qed.

(** A whole axis, from index 0 to the dimension. *)
Lemma const_iterator1_range_axis p j n fuel :
  representable w n -> (Z.to_nat n < fuel)%nat ->
  const_iterator1_range w fuel (const_iterator1.make p 0 j) (const_iterator1.make p n j) =
    Some (Ok (map (fun i => const_iterator1.make p i j) (seqZ 0 n))).
Proof.
  intros Hn Hfuel.
  rewrite (const_iterator1_range_steps p j n Hn (Z.to_nat n) 0 fuel);
    [ | lia | unfold representable in Hn; lia | assumption ].
  rewrite Z2Nat.id by (unfold representable in Hn; lia). reflexivity.
Qed.

Lemma const_iterator2_range_axis p i n fuel :
  representable w n -> (Z.to_nat n < fuel)%nat ->
  const_iterator2_range w fuel (const_iterator2.make p i 0) (const_iterator2.make p i n) =
    Some (Ok (map (fun j => const_iterator2.make p i j) (seqZ 0 n))).
Proof.
  intros Hn Hfuel.
  rewrite (const_iterator2_range_steps p i n Hn (Z.to_nat n) 0 fuel);
    [ | lia | unfold representable in Hn; lia | assumption ].
  rewrite Z2Nat.id by (unfold representable in Hn; lia). reflexivity.
Qed.

End Traversal.

Section Duality.
Variable w : positive.
Context {T : Type} `{EqDecision T}.
Implicit Types (m : @toeplitz_matrix T) (h : gmap nat (@toeplitz_matrix T)).

(** C9: for a matrix [m] at address [this] whose dimensions are size values,
    [begin1 ()] and [end1 ()] delimit exactly [size1_] positions, with the
    advancing index going through [0 .. size1_ - 1] and the second
    coordinate fixed at 0; dereferencing an iterator at indices [(i, j)] is
    the element read [get (i, j)]; from any row position of index [i],
    [begin ()] and [end ()] delimit the column positions [(i, 0) .. (i,
    size2_ - 1)]; and the same holds with the two axes exchanged for
    [begin2 ()], [end2 ()] and their sub-iterators.  The positions are those
    the loop [for (it = first; !(it == last); ++ it)] visits, which it does
    for every bound on its iterations above the dimension. *)
Theorem iterator_duality h this m :
  h !! this = Some m ->
  representable w (size1_ m) -> representable w (size2_ m) ->
  (exists last,
     end1 h this = Ok last /\
     forall fuel, (Z.to_nat (size1_ m) < fuel)%nat ->
       const_iterator1_range w fuel (begin1 this) last =
         Some (Ok (map (fun i => const_iterator1.make this i 0) (seqZ 0 (size1_ m))))) /\
  (exists last,
     end2 h this = Ok last /\
     forall fuel, (Z.to_nat (size2_ m) < fuel)%nat ->
       const_iterator2_range w fuel (begin2 this) last =
         Some (Ok (map (fun j => const_iterator2.make this 0 j) (seqZ 0 (size2_ m))))) /\
  (forall i j,
     const_iterator1_index1 (const_iterator1.make this i j) = i /\
     const_iterator1_index2 (const_iterator1.make this i j) = j /\
     const_iterator1_deref w h (const_iterator1.make this i j) = at_const w m i j /\
     const_iterator2_index1 (const_iterator2.make this i j) = i /\
     const_iterator2_index2 (const_iterator2.make this i j) = j /\
     const_iterator2_deref w h (const_iterator2.make this i j) = at_const w m i j) /\
  (forall i j,
     exists last,
       const_iterator1_end h (const_iterator1.make this i j) = Ok last /\
       forall fuel, (Z.to_nat (size2_ m) < fuel)%nat ->
         const_iterator2_range w fuel
           (const_iterator1_begin (const_iterator1.make this i j)) last =
           Some (Ok (map (fun j' => const_iterator2.make this i j') (seqZ 0 (size2_ m))))) /\
  (forall i j,
     exists last,
       const_iterator2_end h (const_iterator2.make this i j) = Ok last /\
       forall fuel, (Z.to_nat (size1_ m) < fuel)%nat ->
         const_iterator1_range w fuel
           (const_iterator2_begin (const_iterator2.make this i j)) last =
           Some (Ok (map (fun i' => const_iterator1.make this i' j) (seqZ 0 (size1_ m))))).
Proof.
  intros Hm H1 H2.
  assert (container_ref h this = Ok m) as Href
    by (unfold container_ref; rewrite Hm; reflexivity).
  split; [|split; [|split; [|split]]].
  - eexists. split.
    + unfold end1. rewrite Href. reflexivity.
    + intros fuel Hfuel. apply const_iterator1_range_axis; assumption.
  - eexists. split.
    + unfold end2. rewrite Href. reflexivity.
    + intros fuel Hfuel. apply const_iterator2_range_axis; assumption.
  - intros i j.
    unfold const_iterator1_deref, const_iterator2_deref.
    cbn [const_iterator1.container const_iterator2.container].
    rewrite Href. repeat split; reflexivity.
  - intros i j. eexists. split.
    + unfold const_iterator1_end. cbn [const_iterator1.container].
      rewrite Href. reflexivity.
    + intros fuel Hfuel. apply const_iterator2_range_axis; assumption.
  - intros i j. eexists. split.
    + unfold const_iterator2_end. cbn [const_iterator2.container].
      rewrite Href. reflexivity.
    + intros fuel Hfuel. apply const_iterator1_range_axis; assumption.
Qed.

End Duality.

(** ** The length of the storage *)

Section Storage.
Variable w : positive.
Context {T : Type} `{EqDecision T}.
Variable zero : T.
Implicit Types (m : @toeplitz_matrix T) (h : gmap nat (@toeplitz_matrix T)).

Lemma default_elements_size n : 0 <= n -> array_size (default_elements zero n) = n.
Proof.
  intros Hn. unfold array_size, default_elements.
  rewrite length_replicate. lia.
Qed.

Lemma diagonals_no_wrap size1 size2 :
  representable w (size1 + size2 - 1) ->
  size_sub w (size_add w size1 size2) 1 = size1 + size2 - 1.
Proof.
  intros Hrep. unfold size_sub, size_add.
  rewrite wrap_wrap_sub. apply wrap_id, Hrep.
Qed.

Lemma diagonals_wrap_at_zero : size_sub w (size_add w 0 0) 1 = modulus w - 1.
Proof.
  unfold size_sub, size_add. rewrite wrap_wrap_sub. apply wrap_minus_one.
Qed.

Lemma modulus_ge_2 : 2 <= modulus w.
Proof.
  unfold modulus. change 2 with (2 ^ 1) at 1.
  apply Z.pow_le_mono_r; lia.
Qed.

(** The request for a sum above the modulus. *)
Lemma diagonals_wrap_once size1 size2 :
  modulus w <= size1 + size2 - 1 < 2 * modulus w ->
  size_sub w (size_add w size1 size2) 1 = size1 + size2 - 1 - modulus w.
Proof.
  intros Hsum. unfold size_sub, size_add. rewrite wrap_wrap_sub.
  unfold wrap. symmetry. apply (Z.mod_unique_pos _ _ 1); lia.
Qed.

(** What the allocation yields. *)
Lemma unbounded_array_inv n (a : list T) :
  unbounded_array w zero n = Ok a -> allocatable w n /\ a = default_elements zero n.
Proof.
  unfold unbounded_array, allocatable.
  destruct (Z.eqb_spec n (modulus w - 1)) as [Heq | Hne]; [discriminate|].
  intros [= <-]. auto.
Qed.

(** The sized constructor succeeds exactly when its request can be
    allocated. *)
Lemma sized_ok size1 size2 :
  allocatable w (size_sub w (size_add w size1 size2) 1) ->
  toeplitz_matrix_sized w zero size1 size2 =
    Ok {| data_ := default_elements zero (size_sub w (size_add w size1 size2) 1);
          size1_ := size1; size2_ := size2 |}.
Proof.
  intros Halloc. unfold toeplitz_matrix_sized.
  rewrite (unbounded_array_ok w zero) by exact Halloc. reflexivity.
Qed.

Lemma sized_fails size1 size2 :
  size_sub w (size_add w size1 size2) 1 = modulus w - 1 ->
  toeplitz_matrix_sized w zero size1 size2 = Raise bad_alloc.
Proof.
  intros Hrequest. unfold toeplitz_matrix_sized.
  rewrite (unbounded_array_fails w zero) by exact Hrequest. reflexivity.
Qed.

Lemma sized_inv size1 size2 m :
  toeplitz_matrix_sized w zero size1 size2 = Ok m ->
  allocatable w (size_sub w (size_add w size1 size2) 1) /\
  m = {| data_ := default_elements zero (size_sub w (size_add w size1 size2) 1);
         size1_ := size1; size2_ := size2 |}.
Proof.
  unfold toeplitz_matrix_sized.
  destruct (unbounded_array w zero (size_sub w (size_add w size1 size2) 1))
    as [a | e |] eqn:Ha; try discriminate.
  destruct (unbounded_array_inv _ _ Ha) as [Halloc ->]. intros [= <-]. auto.
Qed.

Lemma resize_discard_inv m size1 size2 m' :
  resize w zero size1 size2 false m = (m', Ok tt) ->
  allocatable w (size_sub w (size_add w size1 size2) 1) /\
  m' = {| data_ := default_elements zero (size_sub w (size_add w size1 size2) 1);
          size1_ := size1; size2_ := size2 |}.
Proof.
  intros Hrun.
  destruct (Z.eq_dec (size_sub w (size_add w size1 size2) 1) (modulus w - 1))
    as [Heq | Hne].
  - rewrite (resize_discard_fails w zero m size1 size2 Heq) in Hrun. discriminate.
  - rewrite (resize_discard w zero m size1 size2 Hne) in Hrun.
    injection Hrun as <-. auto.
Qed.

(** A matrix of one row and no column gets an empty storage from the sized
    constructor. *)
Lemma sized_store_empty_one_zero :
  toeplitz_matrix_sized w zero 1 0 = Ok {| data_ := []; size1_ := 1; size2_ := 0 |}.
Proof.
  pose proof modulus_ge_2 as Hm.
  assert (size_sub w (size_add w 1 0) 1 = 0) as Hrequest.
  { apply (diagonals_no_wrap 1 0). unfold representable. lia. }
  rewrite sized_ok; rewrite Hrequest; [reflexivity|].
  unfold allocatable. lia.
Qed.

Lemma sized_store_empty_zero_one :
  toeplitz_matrix_sized w zero 0 1 = Ok {| data_ := []; size1_ := 0; size2_ := 1 |}.
Proof.
  pose proof modulus_ge_2 as Hm.
  assert (size_sub w (size_add w 0 1) 1 = 0) as Hrequest.
  { apply (diagonals_no_wrap 0 1). unfold representable. lia. }
  rewrite sized_ok; rewrite Hrequest; [reflexivity|].
  unfold allocatable. lia.
Qed.

Lemma default_elements_nil n : 0 <= n -> default_elements zero n = [] <-> n = 0.
Proof.
  intros Hn. unfold default_elements. split.
  - intros Hnil. apply (f_equal length) in Hnil.
    rewrite length_replicate in Hnil. simpl in Hnil. lia.
  - intros ->. reflexivity.
Qed.

(** C10, as the code has it: the sized constructor and the resize without
    preservation ask for a storage of [size1 + size2 - 1] elements in the
    arithmetic of the size type, and a call that succeeds has a storage of
    that length.  For [size1 = size2 = 0] the request is the largest size
    value, [2 ^ w - 1]: the allocation fails, so that the constructor builds
    no matrix and the resize raises [bad_alloc] with both dimensions already
    set to zero and the old storage kept; neither produces an empty storage.
    The default constructor builds the matrix of no rows and no columns with
    an empty storage, and so does the sized constructor whenever the request
    is zero: at (1, 0) and (0, 1), and for size values in general exactly
    when [size1 + size2] is 1 or [2 ^ w + 1]. *)
Theorem sized_store_wraps_at_zero :
  (forall size1 size2 m,
     toeplitz_matrix_sized w zero size1 size2 = Ok m ->
     size1_ m = size1 /\ size2_ m = size2 /\
     array_size (data_ m) = size_sub w (size_add w size1 size2) 1) /\
  (forall m size1 size2 m',
     resize w zero size1 size2 false m = (m', Ok tt) ->
     size1_ m' = size1 /\ size2_ m' = size2 /\
     array_size (data_ m') = size_sub w (size_add w size1 size2) 1) /\
  size_sub w (size_add w 0 0) 1 = 2 ^ Z.pos w - 1 /\
  toeplitz_matrix_sized w zero 0 0 = Raise bad_alloc /\
  (forall m,
     resize w zero 0 0 false m =
       ({| data_ := data_ m; size1_ := 0; size2_ := 0 |}, Raise bad_alloc)) /\
  (size1_ (toeplitz_matrix_default zero) = 0 /\
   size2_ (toeplitz_matrix_default zero) = 0 /\
   data_ (toeplitz_matrix_default zero) = []) /\
  (toeplitz_matrix_sized w zero 1 0 = Ok {| data_ := []; size1_ := 1; size2_ := 0 |} /\
   toeplitz_matrix_sized w zero 0 1 = Ok {| data_ := []; size1_ := 0; size2_ := 1 |}) /\
  (forall size1 size2 m,
     representable w size1 -> representable w size2 ->
     toeplitz_matrix_sized w zero size1 size2 = Ok m ->
     (data_ m = [] <-> size1 + size2 = 1 \/ size1 + size2 = 2 ^ Z.pos w + 1)).
Proof.
  pose proof modulus_ge_2 as Hm. fold (modulus w).
  split.
  { intros size1 size2 m Hok. destruct (sized_inv _ _ _ Hok) as [_ ->].
    cbn [size1_ size2_ data_]. split; [reflexivity | split; [reflexivity|]].
    apply default_elements_size, wrap_representable. }
  split.
  { intros m size1 size2 m' Hok. destruct (resize_discard_inv _ _ _ _ Hok) as [_ ->].
    cbn [size1_ size2_ data_]. split; [reflexivity | split; [reflexivity|]].
    apply default_elements_size, wrap_representable. }
  split; [exact diagonals_wrap_at_zero|].
  split; [apply sized_fails, diagonals_wrap_at_zero|].
  split; [intros m; apply resize_discard_fails, diagonals_wrap_at_zero|].
  split; [repeat split|].
  split; [split; [exact sized_store_empty_one_zero | exact sized_store_empty_zero_one]|].
  intros size1 size2 m H1 H2 Hok.
  destruct (sized_inv _ _ _ Hok) as [Halloc ->]. cbn [data_].
  rewrite default_elements_nil by apply wrap_representable.
  unfold representable, allocatable in *.
  destruct (Z_lt_le_dec (size1 + size2) 1) as [Hzero | Hpos].
  - exfalso. apply Halloc.
    replace size1 with 0 by lia. replace size2 with 0 by lia.
    apply diagonals_wrap_at_zero.
  - destruct (Z_lt_le_dec (size1 + size2 - 1) (modulus w)) as [Hsmall | Hlarge].
    + rewrite diagonals_no_wrap by (unfold representable; lia). lia.
    + rewrite diagonals_wrap_once by lia. lia.
Qed.

(** A copy that succeeds fits, and keeps the length of its destination. *)
Lemma std_copy_inv (src : list T) : forall (dst : list T) pos d,
  std_copy src dst pos = Ok d ->
  length d = length dst /\ (src <> [] -> (pos + length src <= length dst)%nat).
Proof.
  induction src as [|x src IH]; intros dst pos d Hcopy; simpl in Hcopy.
  - injection Hcopy as <-. split; [reflexivity | intros Hne; contradiction].
  - destruct (decide (pos < length dst)%nat) as [Hpos|]; [|discriminate].
    destruct (IH _ _ _ Hcopy) as [Hlen Hfit]. rewrite length_insert in Hlen, Hfit.
    split; [exact Hlen|]. intros _. destruct src as [|y src].
    + simpl. lia.
    + specialize (Hfit ltac:(discriminate)). simpl in *. lia.
Qed.

(** A seeded construction that succeeds was given two sequences with the
    same first element, whose diagonal count is a size value that the
    storage was allocated with. *)
Lemma row_column_inv row column m :
  toeplitz_matrix_row_column w zero row column = Ok m ->
  exists x, row !! 0%nat = Some x /\ column !! 0%nat = Some x /\
            representable w (array_size row + array_size column - 1) /\
            allocatable w (array_size row + array_size column - 1).
Proof.
  intros Hok.
  destruct (Z.eq_dec (size_sub w (size_add w (array_size row) (array_size column)) 1)
              (modulus w - 1)) as [Hfull | Halloc].
  { rewrite (row_column_allocation_fails w zero row column Hfull) in Hok.
    discriminate. }
  destruct row as [|r0 row].
  { rewrite (row_column_rejects w zero [] column) in Hok
      by (exact Halloc || (left; reflexivity)).
    discriminate. }
  destruct column as [|c0 column].
  { rewrite (row_column_rejects w zero (r0 :: row) []) in Hok
      by (exact Halloc || (right; left; reflexivity)).
    discriminate. }
  destruct (decide (r0 = c0)) as [<-|Hne].
  2: { rewrite (row_column_rejects w zero (r0 :: row) (c0 :: column)) in Hok.
       - discriminate.
       - exact Halloc.
       - right. right. exists r0, c0.
         split; [reflexivity | split; [reflexivity | exact Hne]]. }
  exists r0. split; [reflexivity | split; [reflexivity|]].
  (* both copies fit the allocated storage, so the request did not wrap *)
  unfold toeplitz_matrix_row_column in Hok.
  rewrite (unbounded_array_ok w zero) in Hok by exact Halloc.
  cbn [mbind outcome_bind] in Hok.
  rewrite !check_true in Hok by (unfold array_size; simpl; lia).
  cbn [mbind outcome_bind] in Hok. rewrite !array_at_head in Hok.
  cbn [mbind outcome_bind] in Hok.
  rewrite check_true in Hok by (apply bool_decide_eq_true; reflexivity).
  cbn [mbind outcome_bind] in Hok.
  set (request := size_sub w (size_add w (array_size (r0 :: row))
                                (array_size (r0 :: column))) 1) in *.
  destruct (std_copy (reverse (r0 :: column)) (default_elements zero request) 0)
    as [d1 | e |] eqn:Hfirst; try discriminate.
  cbn [mbind outcome_bind] in Hok.
  destruct (std_copy (drop 1 (r0 :: row)) d1
              (Z.to_nat (array_size (r0 :: column))))
    as [d2 | e |] eqn:Hsecond; try discriminate.
  destruct (std_copy_inv _ _ _ _ Hfirst) as [Hlen1 Hfit1].
  destruct (std_copy_inv _ _ _ _ Hsecond) as [_ Hfit2].
  change (drop 1 (r0 :: row)) with row in Hfit2.
  assert (reverse (r0 :: column) <> []) as Hne.
  { intros Hnil. apply (f_equal length) in Hnil.
    rewrite length_reverse in Hnil. discriminate. }
  specialize (Hfit1 Hne). rewrite length_reverse in Hfit1.
  unfold default_elements in Hfit1, Hlen1. rewrite length_replicate in Hfit1, Hlen1.
  rewrite Hlen1 in Hfit2. unfold array_size in *. simpl length in *.
  assert (Z.of_nat (S (length row)) + Z.of_nat (S (length column)) - 1
          <= request) as Hlow.
  { destruct row as [|r1 row].
    - simpl. lia.
    - specialize (Hfit2 ltac:(discriminate)). simpl length in *. lia. }
  assert (request <= Z.of_nat (S (length row)) + Z.of_nat (S (length column)) - 1)
    as Hhigh.
  { subst request. unfold size_sub, size_add. rewrite wrap_wrap_sub. unfold wrap.
    apply Z.mod_le; [lia | apply modulus_pos]. }
  assert (request = Z.of_nat (S (length row)) + Z.of_nat (S (length column)) - 1)
    as Hrequest by lia.
  pose proof (wrap_representable w
                (wrap w (Z.of_nat (S (length row)) + Z.of_nat (S (length column))) - 1))
    as Hrep.
  fold (size_add w (Z.of_nat (S (length row))) (Z.of_nat (S (length column)))) in Hrep.
  fold (size_sub w (size_add w (Z.of_nat (S (length row)))
                      (Z.of_nat (S (length column)))) 1) in Hrep.
  fold request in Hrep. rewrite Hrequest in Hrep, Halloc.
  split; [exact Hrep | exact Halloc].
Qed.

Lemma assign_element_shape m i j t m' r :
  assign_element w i j t m = (m', r) -> same_shape m m'.
Proof.
  unfold assign_element. cbv [mbind stateful_bind load pure store_data_ id].
  destruct (at_ref w m i j) as [k | e |]; intros [= <- <-].
  - unfold same_shape, array_size, array_store, data. cbn [data_ size1_ size2_].
    rewrite length_insert. auto.
  - unfold same_shape. auto.
  - unfold same_shape. auto.
Qed.

Lemma erase_element_shape m i j m' r :
  erase_element w zero i j m = (m', r) -> same_shape m m'.
Proof.
  unfold erase_element. cbv [mbind stateful_bind].
  destruct (assign_element w i j zero m) as [m1 [k | e |]] eqn:Hassign;
    intros [= <- <-]; exact (assign_element_shape _ _ _ _ _ _ Hassign).
Qed.

Lemma clear_shape m m' r : clear zero m = (m', r) -> same_shape m m'.
Proof.
  unfold clear. cbv [mbind stateful_bind load store_data_].
  intros [= <- <-]. unfold same_shape, array_size, std_fill. cbn [data_ size1_ size2_].
  rewrite length_replicate. auto.
Qed.

Lemma same_shape_store_matches m m' :
  same_shape m m' -> store_matches m -> store_matches m'.
Proof.
  intros (H1 & H2 & H3) [Hcount | (Hz1 & Hz2 & Hnil)].
  - left. unfold diagonal_count in *. lia.
  - right. split; [lia | split; [lia|]].
    rewrite Hnil in H3. unfold array_size in H3. simpl in H3.
    destruct (data_ m'); [reflexivity | discriminate].
Qed.

Lemma store_matches_invariant m : store_matches m -> storage_invariant m.
Proof.
  intros [Hcount | (Hz1 & Hz2 & Hnil)]; unfold storage_invariant, diagonal_count in *.
  - split; [intros _; exact Hcount|]. intros [Hz1 Hz2].
    unfold array_size in Hcount. lia.
  - split; [lia | intros _; exact Hnil].
Qed.

(** C6, as the code has it: every constructor and every resize that succeeds
    on arguments whose diagonal count [size1 + size2 - 1] does not overflow
    the size type builds a storage of exactly [size1 + size2 - 1] values, or
    the empty storage of the matrix of no rows and no columns, and hence
    satisfies the storage invariant: the default constructor; the sized
    constructor and the resize without preservation; the constructor from
    dimensions and data, for data of exactly that length; the seeded
    constructor, for which success alone suffices.  Every preserving resize
    that succeeds keeps the storage and sets the dimensions, so that it
    keeps the count when the two sums do not overflow, and one that fails
    changes nothing.  Element assignment, erasure and clearing keep the
    count, and assignment and swap leave in every object a state that some
    object had before. *)
Theorem storage_length_established :
  store_matches (toeplitz_matrix_default zero) /\
  (forall size1 size2 m,
     0 <= size1 -> 0 <= size2 -> size1 + size2 <= modulus w ->
     toeplitz_matrix_sized w zero size1 size2 = Ok m ->
     size1_ m = size1 /\ size2_ m = size2 /\ store_matches m) /\
  (forall size1 size2 (a : list T),
     array_size a = size1 + size2 - 1 ->
     store_matches (toeplitz_matrix_data size1 size2 a)) /\
  (forall row column m,
     toeplitz_matrix_row_column w zero row column = Ok m ->
     0 < size1_ m /\ 0 < size2_ m /\ store_matches m) /\
  (forall m size1 size2 m',
     0 <= size1 -> 0 <= size2 -> size1 + size2 <= modulus w ->
     resize w zero size1 size2 false m = (m', Ok tt) ->
     size1_ m' = size1 /\ size2_ m' = size2 /\ store_matches m') /\
  (forall m size1 size2 m',
     resize w zero size1 size2 true m = (m', Ok tt) ->
     data_ m' = data_ m /\ size1_ m' = size1 /\ size2_ m' = size2) /\
  (forall m size1 size2 m',
     0 <= size1 -> 0 <= size2 ->
     representable w (size1 + size2) -> representable w (size1_ m + size2_ m) ->
     resize w zero size1 size2 true m = (m', Ok tt) ->
     store_matches m -> store_matches m') /\
  (forall m size1 size2 m' e,
     resize w zero size1 size2 true m = (m', Raise e) -> m' = m) /\
  (forall m i j t m' r,
     insert_element w i j t m = (m', r) -> store_matches m -> store_matches m') /\
  (forall m i j m' r,
     erase_element w zero i j m = (m', r) -> store_matches m -> store_matches m') /\
  (forall m m' r, clear zero m = (m', r) -> store_matches m -> store_matches m') /\
  (forall h a b ma mb,
     h !! a = Some ma -> h !! b = Some mb ->
     exists h', assign a b h = (h', Ok a) /\
                forall p m', h' !! p = Some m' -> exists q, h !! q = Some m') /\
  (forall h a b ma mb,
     h !! a = Some ma -> h !! b = Some mb ->
     exists h', swap a b h = (h', Ok tt) /\
                forall p m', h' !! p = Some m' -> exists q, h !! q = Some m') /\
  (forall m, store_matches m -> storage_invariant m).
Proof.
  pose proof modulus_ge_2 as Hm.
  assert (forall size1 size2,
            0 <= size1 -> 0 <= size2 -> size1 + size2 <= modulus w ->
            allocatable w (size_sub w (size_add w size1 size2) 1) ->
            store_matches
              {| data_ := default_elements zero (size_sub w (size_add w size1 size2) 1);
                 size1_ := size1; size2_ := size2 |}) as Hbuilt.
  { intros size1 size2 H1 H2 Hsum Halloc. left. unfold diagonal_count.
    cbn [data_ size1_ size2_].
    rewrite default_elements_size by apply wrap_representable.
    destruct (Z_lt_le_dec (size1 + size2) 1) as [Hzero | Hpos].
    - exfalso. apply Halloc.
      replace size1 with 0 by lia. replace size2 with 0 by lia.
      apply diagonals_wrap_at_zero.
    - apply diagonals_no_wrap. unfold representable. lia. }
  split; [right; repeat split|].
  split.
  { intros size1 size2 m H1 H2 Hsum Hok.
    destruct (sized_inv _ _ _ Hok) as [Halloc ->]. cbn [size1_ size2_].
    split; [reflexivity | split; [reflexivity | auto]]. }
  split.
  { intros size1 size2 a Hlen. left. exact Hlen. }
  split.
  { intros row column m Hok.
    destruct (row_column_inv row column m Hok) as (x & Hr & Hc & Hrep & Halloc).
    rewrite (row_column_ok w zero row column x Hr Hc Hrep Halloc) in Hok.
    injection Hok as <-. cbn [size1_ size2_].
    assert (0 < length row)%nat by (eapply lookup_lt_Some, Hr).
    assert (0 < length column)%nat by (eapply lookup_lt_Some, Hc).
    unfold array_size.
    split; [lia | split; [lia|]]. left. unfold diagonal_count, array_size.
    cbn [data_ size1_ size2_].
    rewrite length_app, length_reverse, length_drop. lia. }
  split.
  { intros m size1 size2 m' H1 H2 Hsum Hok.
    destruct (resize_discard_inv _ _ _ _ Hok) as [Halloc ->]. cbn [size1_ size2_].
    split; [reflexivity | split; [reflexivity | auto]]. }
  assert (forall m size1 size2 m',
            resize w zero size1 size2 true m = (m', Ok tt) ->
            size_add w size1 size2 = size_add w (size1_ m) (size2_ m) /\
            m' = {| data_ := data_ m; size1_ := size1; size2_ := size2 |}) as Hkeep.
  { intros m size1 size2 m' Hres.
    destruct (decide (size_add w size1 size2 = size_add w (size1_ m) (size2_ m)))
      as [Heq | Hne].
    - rewrite (resize_preserve_succeeds w zero m size1 size2 Heq) in Hres.
      injection Hres as <-. auto.
    - rewrite (resize_preserve_fails w zero m size1 size2 Hne) in Hres.
      discriminate. }
  split.
  { intros m size1 size2 m' Hres. destruct (Hkeep _ _ _ _ Hres) as [_ ->].
    cbn [data_ size1_ size2_]. auto. }
  split.
  { intros m size1 size2 m' H1 H2 Hnew Hold Hres Hmatch.
    destruct (Hkeep _ _ _ _ Hres) as [Heq ->].
    unfold size_add in Heq. rewrite !wrap_id in Heq by assumption.
    destruct Hmatch as [Hcount | (Hz1 & Hz2 & Hnil)].
    - left. unfold diagonal_count in *. cbn [data_ size1_ size2_]. lia.
    - right. cbn [data_ size1_ size2_]. split; [lia | split; [lia | exact Hnil]]. }
  split.
  { intros m size1 size2 m' e Hres.
    destruct (decide (size_add w size1 size2 = size_add w (size1_ m) (size2_ m)))
      as [Heq | Hne].
    - rewrite (resize_preserve_succeeds w zero m size1 size2 Heq) in Hres.
      discriminate.
    - rewrite (resize_preserve_fails w zero m size1 size2 Hne) in Hres.
      injection Hres as <- _. reflexivity. }
  split.
  { intros m i j t m' r Hrun.
    apply same_shape_store_matches, (assign_element_shape m i j t m' r Hrun). }
  split.
  { intros m i j m' r Hrun.
    apply same_shape_store_matches, (erase_element_shape m i j m' r Hrun). }
  split.
  { intros m m' r Hrun.
    apply same_shape_store_matches, (clear_shape m m' r Hrun). }
  split.
  { intros h a b ma mb Ha Hb.
    destruct (assign_copies h a b ma mb Ha Hb) as (h' & Hrun & Hat & _ & Hother).
    exists h'. split; [exact Hrun|].
    intros p m' Hp. destruct (decide (p = a)) as [->|Hpa].
    - exists b. congruence.
    - exists p. rewrite <- (Hother p Hpa). exact Hp. }
  split; [|exact store_matches_invariant].
  intros h a b ma mb Ha Hb.
  destruct (decide (a = b)) as [->|Hne].
  - exists h. split; [apply swap_self|]. intros p m' Hp. exists p. exact Hp.
  - exists (<[b := ma]> (<[a := mb]> h)).
    split; [apply (swap_distinct h a b ma mb Hne Ha Hb)|].
    intros p m' Hp.
    destruct (decide (p = b)) as [->|Hpb].
    + rewrite lookup_insert_eq in Hp. exists a. congruence.
    + rewrite lookup_insert_ne in Hp by congruence.
      destruct (decide (p = a)) as [->|Hpa].
      * rewrite lookup_insert_eq in Hp. exists b. congruence.
      * rewrite lookup_insert_ne in Hp by congruence. exists p. exact Hp.
Qed.

End Storage.

(** * Instances on 64-bit sizes and integer elements *)

Lemma well_formed_two_by_two : well_formed 64 two_by_two.
Proof.
  unfold well_formed.
  repeat split; cbn [two_by_two toeplitz_matrix_data size1_ size2_ data_];
    unfold array_size; simpl; lia || reflexivity.
Defined.

Lemma offset_diagonal_bijection_witness :
  (0 < size1_ three_by_three /\ 0 < size2_ three_by_three /\
   representable 64 (size1_ three_by_three + size2_ three_by_three - 1)) /\
  offset 64 three_by_three 2 0 = 0 /\
  offset 64 three_by_three 0 0 = offset 64 three_by_three 1 1.
Proof.
  assert (0 < size1_ three_by_three) as H1 by (simpl; lia).
  assert (0 < size2_ three_by_three) as H2 by (simpl; lia).
  assert (representable 64 (size1_ three_by_three + size2_ three_by_three - 1))
    as H3 by (simpl; representable_numeral).
  split; [auto|].
  destruct (offset_diagonal_bijection 64 three_by_three H1 H2 H3)
    as (Hvalue & _ & Hdiag).
  assert (0 <= 0 < 3) as R0 by lia.
  assert (0 <= 1 < 3) as R1 by lia.
  assert (0 <= 2 < 3) as R2 by lia.
  split.
  - destruct (Hvalue 2 0 R2 R0) as (_ & _ & Hoff & _). exact Hoff.
  - apply (Hdiag 0 0 1 1 R0 R0 R1 R1). reflexivity.
Defined.

Lemma insert_element_diagonal_witness :
  (well_formed 64 two_by_two /\ 0 <= 0 < size1_ two_by_two /\
   0 <= 0 < size2_ two_by_two) /\
  exists m' r,
    insert_element 64 0 0 9 two_by_two = (m', Ok r) /\
    at_const 64 m' 1 1 = Ok 9 /\
    at_const 64 m' 0 1 = at_const 64 two_by_two 0 1.
Proof.
  assert (0 <= 0 < size1_ two_by_two) as R0 by (simpl; lia).
  assert (0 <= 0 < size2_ two_by_two) as C0 by (simpl; lia).
  assert (0 <= 1 < size1_ two_by_two) as R1 by (simpl; lia).
  assert (0 <= 1 < size2_ two_by_two) as C1 by (simpl; lia).
  split; [auto using well_formed_two_by_two|].
  destruct (insert_element_diagonal 64 two_by_two 0 0 9
              well_formed_two_by_two R0 C0)
    as (m' & r & Hrun & _ & _ & _ & Hread).
  exists m', r. split; [exact Hrun | split].
  - apply (proj1 (Hread 1 1 R1 C1)). reflexivity.
  - apply (proj2 (Hread 0 1 R0 C1)). discriminate.
Defined.

Lemma resize_preserve_all_or_nothing_witness :
  (representable 64 (3 + 1) /\ representable 64 (size1_ two_by_two + size2_ two_by_two)) /\
  resize 64 0 3 1 true two_by_two =
    ({| data_ := data_ two_by_two; size1_ := 3; size2_ := 1 |}, Ok tt) /\
  resize 64 0 3 3 true two_by_two = (two_by_two, Raise external_logic).
Proof.
  assert (representable 64 (3 + 1)) as Hnew by representable_numeral.
  assert (representable 64 (3 + 3)) as Hbad by representable_numeral.
  assert (representable 64 (size1_ two_by_two + size2_ two_by_two)) as Hold
    by (simpl; representable_numeral).
  split; [auto|]. split.
  - apply (proj2 (proj2 (proj2 (resize_preserve_all_or_nothing 64 0 two_by_two 3 1))
                    Hnew Hold)).
    reflexivity.
  - apply (proj1 (proj2 (proj2 (resize_preserve_all_or_nothing 64 0 two_by_two 3 3))
                    Hbad Hold)).
    discriminate.
Defined.

(** C5 as stated fails: on the 2x2 matrix, whose dimensions sum to 4, the
    preserving resize to [2 ^ 64 - 1] rows and 5 columns, whose sum is
    another number, does not fail: it succeeds and sets the dimensions,
    because the sums are compared after they wrapped around. *)
Lemma resize_preserve_counterexample :
  18446744073709551615 + 5 <> size1_ two_by_two + size2_ two_by_two /\
  resize 64 0 18446744073709551615 5 true two_by_two =
    ({| data_ := data_ two_by_two; size1_ := 18446744073709551615; size2_ := 5 |},
     Ok tt).
Proof. split; [discriminate | reflexivity]. Qed.

(** C6 as stated fails.  The sized constructor, given [2 ^ 63] rows and
    [2 ^ 63 + 1] columns, succeeds with an empty storage, since
    [size1 + size2 - 1] wraps around to 0: both dimensions are positive and
    the storage does not hold [size1 + size2 - 1] values.  And the resize
    without preservation of the 2x2 matrix to no rows and no columns, which
    raises [bad_alloc], leaves a matrix of no rows and no columns that still
    holds its three values. *)
Lemma storage_invariant_counterexample :
  (exists m,
     toeplitz_matrix_sized 64 0 9223372036854775808 9223372036854775809 = Ok m /\
     0 < size1_ m /\ 0 < size2_ m /\ data_ m = [] /\ ~ storage_invariant m) /\
  (exists m,
     resize 64 0 0 0 false two_by_two = (m, Raise bad_alloc) /\
     size1_ m = 0 /\ size2_ m = 0 /\ data_ m = [1; 2; 3] /\ ~ storage_invariant m).
Proof.
  split.
  - eexists. split; [reflexivity|]. cbn [size1_ size2_ data_].
    split; [lia | split; [lia | split; [reflexivity|]]].
    intros [Hcount _]. cbn [size1_ size2_ data_] in Hcount.
    unfold array_size in Hcount. simpl in Hcount. lia.
  - eexists. split; [reflexivity|]. cbn [size1_ size2_ data_].
    split; [reflexivity | split; [reflexivity | split; [reflexivity|]]].
    intros [_ Hempty]. cbn [size1_ size2_ data_] in Hempty.
    specialize (Hempty (conj eq_refl eq_refl)). discriminate.
Qed.

Lemma storage_length_established_witness :
  (0 <= 2 /\ 2 + 2 <= modulus 64 /\
   toeplitz_matrix_sized 64 0 2 2 =
     Ok {| data_ := [0; 0; 0]; size1_ := 2; size2_ := 2 |}) /\
  store_matches {| data_ := [0; 0; 0]; size1_ := 2; size2_ := 2 |}.
Proof.
  assert (0 <= 2) as Hpos by lia.
  assert (2 + 2 <= modulus 64) as Hsum by discriminate.
  assert (toeplitz_matrix_sized 64 0 2 2 =
            Ok {| data_ := [0; 0; 0]; size1_ := 2; size2_ := 2 |}) as Hok
    by reflexivity.
  split; [auto|].
  exact (proj2 (proj2 (proj1 (proj2 (storage_length_established 64 0)) 2 2 _
                         Hpos Hpos Hsum Hok))).
Defined.

(** C10 as stated fails: the default constructor is not the only one that
    yields an empty storage; the sized constructor does for one row and no
    column. *)
Lemma sized_store_counterexample :
  toeplitz_matrix_sized 64 0 1 0 = Ok {| data_ := []; size1_ := 1; size2_ := 0 |}.
Proof. reflexivity. Qed.

Lemma sized_store_wraps_at_zero_witness :
  (representable 64 3 /\ representable 64 4 /\
   toeplitz_matrix_sized 64 0 3 4 =
     Ok {| data_ := [0; 0; 0; 0; 0; 0]; size1_ := 3; size2_ := 4 |}) /\
  ([0; 0; 0; 0; 0; 0] = @nil Z <-> 3 + 4 = 1 \/ 3 + 4 = 2 ^ 64 + 1).
Proof.
  assert (representable 64 3) as H3 by representable_numeral.
  assert (representable 64 4) as H4 by representable_numeral.
  assert (toeplitz_matrix_sized 64 0 3 4 =
            Ok {| data_ := [0; 0; 0; 0; 0; 0]; size1_ := 3; size2_ := 4 |}) as Hok
    by reflexivity.
  split; [auto|].
  exact (proj2 (proj2 (proj2 (proj2 (proj2 (proj2 (proj2
           (sized_store_wraps_at_zero 64 0))))))) 3 4 _ H3 H4 Hok).
Defined.

Lemma swap_exchanges_witness :
  (two_objects !! 1%nat = Some two_by_two /\
   two_objects !! 2%nat = Some three_by_three /\ 1%nat <> 2%nat) /\
  exists h',
    swap_friend 1 2 two_objects = (h', Ok tt) /\
    h' !! 1%nat = Some three_by_three /\ h' !! 2%nat = Some two_by_two.
Proof.
  assert (two_objects !! 1%nat = Some two_by_two) as H1 by reflexivity.
  assert (two_objects !! 2%nat = Some three_by_three) as H2 by reflexivity.
  assert (1%nat <> 2%nat) as Hne by discriminate.
  split; [auto|].
  destruct (proj1 (swap_exchanges Z two_objects 1 2 two_by_two three_by_three H1 H2) Hne)
    as (h' & Hrun & _ & Ha & Hb & _).
  exists h'. auto.
Defined.

Lemma iterator_duality_witness :
  (two_objects !! 1%nat = Some two_by_two /\
   representable 64 (size1_ two_by_two) /\ representable 64 (size2_ two_by_two)) /\
  exists last,
    end1 two_objects 1 = Ok last /\
    const_iterator1_range 64 3 (begin1 1) last =
      Some (Ok (map (fun i => const_iterator1.make 1 i 0) (seqZ 0 (size1_ two_by_two)))).
Proof.
  assert (two_objects !! 1%nat = Some two_by_two) as H1 by reflexivity.
  assert (representable 64 (size1_ two_by_two)) as R1 by (simpl; representable_numeral).
  assert (representable 64 (size2_ two_by_two)) as R2 by (simpl; representable_numeral).
  split; [auto|].
  destruct (iterator_duality 64 two_objects 1 two_by_two H1 R1 R2)
    as ((last & Hend & Hrange) & _).
  exists last. split; [exact Hend|].
  apply Hrange. simpl. lia.
Defined.

(** * Further properties of the container *)

(** ** Bounds, diagonals and element mutation *)

Section ElementFacts.
Variable w : positive.
Context {T : Type} `{EqDecision T}.
Variable zero : T.
Implicit Types m : @toeplitz_matrix T.

Lemma index_check_fails m i j :
  size1_ m <= i \/ size2_ m <= j ->
  (i <? size1_ m) = false \/ ((i <? size1_ m) = true /\ (j <? size2_ m) = false).
Proof.
  intros Hout. destruct (i <? size1_ m) eqn:Hi; [|left; reflexivity].
  right. split; [reflexivity|]. apply Z.ltb_lt in Hi. apply Z.ltb_ge. lia.
Qed.

(** X1: an element access with a row index not below [size1_] or a column
    index not below [size2_] raises [bad_index], for the const and for the
    mutable overload, whatever the storage holds. *)
Theorem access_out_of_range m i j :
  size1_ m <= i \/ size2_ m <= j ->
  at_const w m i j = Raise bad_index /\ at_ref w m i j = Raise bad_index.
Proof.
  intros Hout. unfold at_const, at_ref.
  destruct (index_check_fails m i j Hout) as [Hi | [Hi Hj]].
  - rewrite Hi. split; reflexivity.
  - rewrite Hi, Hj. split; reflexivity.
Qed.

(** X2: an element assignment or erasure at an index out of range raises
    [bad_index] and leaves the matrix exactly as it was. *)
Theorem mutation_out_of_range m i j t :
  size1_ m <= i \/ size2_ m <= j ->
  insert_element w i j t m = (m, Raise bad_index) /\
  erase_element w zero i j m = (m, Raise bad_index).
Proof.
  intros Hout.
  assert (at_ref w m i j = Raise bad_index) as Href.
  { unfold at_ref. destruct (index_check_fails m i j Hout) as [Hi | [Hi Hj]].
    - rewrite Hi. reflexivity.
    - rewrite Hi, Hj. reflexivity. }
  unfold insert_element, erase_element, assign_element.
  cbv [mbind stateful_bind load pure id]. rewrite Href. split; reflexivity.
Qed.

(** Every slot of a diagonal in range holds a value. *)
Lemma diagonal_slot_holds m i j :
  well_formed w m -> 0 <= i < size1_ m -> 0 <= j < size2_ m ->
  exists x, data_ m !! Z.to_nat (size1_ m - 1 - i + j) = Some x /\
            at_const w m i j = Ok x.
Proof.
  intros Hwf Hi Hj. pose proof Hwf as (_ & _ & _ & Hlen).
  destruct (lookup_lt_is_Some_2 (data_ m) (Z.to_nat (size1_ m - 1 - i + j)))
    as [x Hx].
  { unfold array_size in Hlen. lia. }
  exists x. split; [exact Hx|].
  rewrite at_const_load by (auto using well_formed_diagonals).
  unfold array_load. rewrite Hx. reflexivity.
Qed.

(** X3: on a matrix that satisfies the representation invariant every read
    in range succeeds, and two reads on the same diagonal give the same
    value. *)
Theorem constant_diagonal m i j i' j' :
  well_formed w m ->
  0 <= i < size1_ m -> 0 <= j < size2_ m ->
  0 <= i' < size1_ m -> 0 <= j' < size2_ m ->
  i - j = i' - j' ->
  exists x, at_const w m i j = Ok x /\ at_const w m i' j' = Ok x.
Proof.
  intros Hwf Hi Hj Hi' Hj' Hdiag.
  destruct (diagonal_slot_holds m i j Hwf Hi Hj) as (x & Hx & Hread).
  exists x. split; [exact Hread|].
  rewrite at_const_load by (auto using well_formed_diagonals || apply Hwf).
  replace (size1_ m - 1 - i' + j') with (size1_ m - 1 - i + j) by lia.
  unfold array_load. rewrite Hx. reflexivity.
Qed.

(** An element assignment keeps the representation invariant. *)
Lemma assign_element_well_formed m i j t m' r :
  well_formed w m -> assign_element w i j t m = (m', r) -> well_formed w m'.
Proof.
  intros Hwf Hrun. destruct (assign_element_shape w m i j t m' r Hrun) as (H1 & H2 & H3).
  unfold well_formed in *. rewrite H1, H2, H3. exact Hwf.
Qed.

(** The reads after an element assignment. *)
Lemma assign_element_reads m i j t :
  well_formed w m -> 0 <= i < size1_ m -> 0 <= j < size2_ m ->
  exists m' r,
    assign_element w i j t m = (m', Ok r) /\
    size1_ m' = size1_ m /\ size2_ m' = size2_ m /\
    forall i' j', 0 <= i' < size1_ m -> 0 <= j' < size2_ m ->
      (i' - j' = i - j -> at_const w m' i' j' = Ok t) /\
      (i' - j' <> i - j -> at_const w m' i' j' = at_const w m i' j').
Proof.
  intros Hwf Hi Hj. pose proof Hwf as (_ & _ & _ & Hlen).
  pose proof (well_formed_diagonals w m Hwf) as Hd.
  eexists _, _. rewrite assign_element_ok by assumption.
  split; [reflexivity | split; [reflexivity | split; [reflexivity |]]].
  intros i' j' Hi' Hj'. unfold array_size in Hlen.
  rewrite at_const_load; cbn [data_ size1_ size2_];
    [ | unfold array_size, array_store; rewrite length_insert; assumption
      | assumption | assumption | assumption ].
  rewrite (at_const_load w m i' j') by assumption.
  split; intros Hdiag.
  - replace (size1_ m - 1 - i' + j') with (size1_ m - 1 - i + j) by lia.
    apply array_load_store_eq. lia.
  - apply array_load_store_ne. lia.
Qed.

(** X4: on a matrix that satisfies the representation invariant,
    [erase_element (i, j)] at a valid pair succeeds, keeps the dimensions,
    sets every element of the diagonal through [(i, j)] to the default value
    and leaves the elements of every other diagonal as they were. *)
Theorem erase_element_diagonal m i j :
  well_formed w m -> 0 <= i < size1_ m -> 0 <= j < size2_ m ->
  exists m',
    erase_element w zero i j m = (m', Ok tt) /\
    size1_ m' = size1_ m /\ size2_ m' = size2_ m /\
    forall i' j', 0 <= i' < size1_ m -> 0 <= j' < size2_ m ->
      (i' - j' = i - j -> at_const w m' i' j' = Ok zero) /\
      (i' - j' <> i - j -> at_const w m' i' j' = at_const w m i' j').
Proof.
  intros Hwf Hi Hj.
  destruct (assign_element_reads m i j zero Hwf Hi Hj)
    as (m' & r & Hrun & H1 & H2 & Hreads).
  exists m'. unfold erase_element. cbv [mbind stateful_bind].
  rewrite Hrun. auto.
Qed.

(** X5: on a matrix that satisfies the representation invariant, [clear ()]
    succeeds, keeps the dimensions and the number of stored values, and
    afterwards every read in range returns the default value. *)
Theorem clear_zeroes m :
  well_formed w m ->
  exists m',
    clear zero m = (m', Ok tt) /\ well_formed w m' /\
    size1_ m' = size1_ m /\ size2_ m' = size2_ m /\
    forall i j, 0 <= i < size1_ m -> 0 <= j < size2_ m ->
      at_const w m' i j = Ok zero.
Proof.
  intros Hwf. pose proof Hwf as (Hs1 & Hs2 & Hs3 & Hlen).
  eexists. split; [reflexivity|]. cbn [size1_ size2_ data_].
  assert (array_size (std_fill (data_ m) zero) = array_size (data_ m)) as Hfill
    by (unfold array_size, std_fill; rewrite length_replicate; reflexivity).
  split.
  { unfold well_formed. cbn [size1_ size2_ data_]. rewrite Hfill. exact Hwf. }
  split; [reflexivity | split; [reflexivity|]].
  intros i j Hi Hj.
  rewrite at_const_load; cbn [size1_ size2_ data_];
    [ | rewrite Hfill; exact Hlen | rewrite <- Hlen; exact Hs3
      | assumption | assumption ].
  unfold array_load, std_fill.
  rewrite lookup_replicate_2 by (unfold array_size in Hlen; lia).
  reflexivity.
Qed.

(** X6: on a matrix that satisfies the representation invariant, two
    element assignments at valid pairs on different diagonals commute, and
    of two assignments on the same diagonal only the second one counts. *)
Theorem insert_element_order m i j t i' j' t' :
  well_formed w m ->
  0 <= i < size1_ m -> 0 <= j < size2_ m ->
  0 <= i' < size1_ m -> 0 <= j' < size2_ m ->
  (i - j <> i' - j' ->
     (insert_element w i' j' t' (insert_element w i j t m).1).1 =
     (insert_element w i j t (insert_element w i' j' t' m).1).1) /\
  (i - j = i' - j' ->
     (insert_element w i' j' t' (insert_element w i j t m).1).1 =
     (insert_element w i' j' t' m).1).
Proof.
  intros Hwf Hi Hj Hi' Hj'. unfold insert_element.
  assert (forall a b v a' b' v',
            0 <= a < size1_ m -> 0 <= b < size2_ m ->
            0 <= a' < size1_ m -> 0 <= b' < size2_ m ->
            (assign_element w a' b' v' (assign_element w a b v m).1).1 =
            {| data_ := array_store (array_store (data_ m)
                          (Z.to_nat (size1_ m - 1 - a + b)) v)
                          (Z.to_nat (size1_ m - 1 - a' + b')) v';
               size1_ := size1_ m; size2_ := size2_ m |}) as Htwice.
  { intros a b v a' b' v' Ha Hb Ha' Hb'.
    rewrite (assign_element_ok w m a b v) by assumption. cbn [fst].
    rewrite assign_element_ok; cbn [data_ size1_ size2_]; [reflexivity | | assumption | assumption].
    eapply assign_element_well_formed; [exact Hwf|].
    apply (assign_element_ok w m a b v); assumption. }
  split; intros Hdiag.
  - rewrite !Htwice by assumption. unfold array_store. f_equal.
    apply list_insert_insert_ne. lia.
  - rewrite Htwice by assumption.
    rewrite (assign_element_ok w m i' j' t') by assumption. cbn [fst].
    unfold array_store. f_equal.
    replace (size1_ m - 1 - i + j) with (size1_ m - 1 - i' + j') by lia.
    apply list_insert_insert_eq.
Qed.

(** X7: writing back the value just read changes nothing: when
    [get (i, j)] returns [x], [set (i, j, x)] succeeds and leaves the matrix
    as it was. *)
Theorem insert_element_read_back m i j x :
  well_formed w m -> 0 <= i < size1_ m -> 0 <= j < size2_ m ->
  at_const w m i j = Ok x ->
  exists r, insert_element w i j x m = (m, Ok r).
Proof.
  intros Hwf Hi Hj Hread.
  destruct (diagonal_slot_holds m i j Hwf Hi Hj) as (y & Hy & Hread').
  assert (y = x) as -> by congruence.
  eexists. unfold insert_element. rewrite assign_element_ok by assumption.
  unfold array_store. rewrite list_insert_id by exact Hy.
  destruct m. reflexivity.
Qed.

End ElementFacts.

(** ** The seeded constructor and the layout of the storage *)

Section SeededFacts.
Variable w : positive.
Context {T : Type} `{EqDecision T}.
Variable zero : T.
Implicit Types (m : @toeplitz_matrix T) (row column : list T).

(** X8: the matrix constructed from a row [r] and a column [c], whose
    diagonal count is a size value that the storage can be allocated with,
    is the Toeplitz matrix of the two: on and above the main diagonal
    [get (i, j) = r [j - i]], on and below it [get (i, j) = c [i - j]]. *)
Theorem row_column_toeplitz row column x :
  row !! 0%nat = Some x -> column !! 0%nat = Some x ->
  representable w (array_size row + array_size column - 1) ->
  allocatable w (array_size row + array_size column - 1) ->
  exists m,
    toeplitz_matrix_row_column w zero row column = Ok m /\
    forall i j : nat, (i < length column)%nat -> (j < length row)%nat ->
      (forall y, (i <= j)%nat -> row !! (j - i)%nat = Some y ->
                 at_const w m (Z.of_nat i) (Z.of_nat j) = Ok y) /\
      (forall y, (j <= i)%nat -> column !! (i - j)%nat = Some y ->
                 at_const w m (Z.of_nat i) (Z.of_nat j) = Ok y).
Proof.
  intros Hr Hc Hrep Halloc.
  eexists. split; [apply (row_column_ok w zero _ _ x); assumption|].
  assert (0 < length row)%nat as Hlr by (eapply lookup_lt_Some, Hr).
  assert (0 < length column)%nat as Hlc by (eapply lookup_lt_Some, Hc).
  assert (array_size (reverse column ++ drop 1 row) =
          array_size column + array_size row - 1) as Hlen.
  { unfold array_size. rewrite length_app, length_reverse, length_drop. lia. }
  assert (representable w (array_size column + array_size row - 1)) as Hrep'.
  { replace (array_size column + array_size row - 1)
      with (array_size row + array_size column - 1) by lia. exact Hrep. }
  intros i j Hi Hj.
  assert (at_const w {| data_ := reverse column ++ drop 1 row;
                        size1_ := array_size column; size2_ := array_size row |}
            (Z.of_nat i) (Z.of_nat j) =
          array_load (reverse column ++ drop 1 row)
            (Z.to_nat (array_size column - 1 - Z.of_nat i + Z.of_nat j))) as Hload.
  { rewrite at_const_load; cbn [size1_ size2_ data_];
      [ reflexivity | assumption | assumption
      | unfold array_size; lia | unfold array_size; lia ]. }
  rewrite Hload. unfold array_load, array_size.
  split; intros y Hij Hy.
  - replace (Z.to_nat (Z.of_nat (length column) - 1 - Z.of_nat i + Z.of_nat j))
      with (length column - 1 + (j - i))%nat by lia.
    rewrite (seeded_lookup_row row column x (j - i) y) by assumption.
    reflexivity.
  - replace (Z.to_nat (Z.of_nat (length column) - 1 - Z.of_nat i + Z.of_nat j))
      with (length column - 1 - (i - j))%nat by lia.
    rewrite (seeded_lookup_column row column (i - j) y) by assumption.
    reflexivity.
Qed.

(** X9: a matrix that satisfies the representation invariant, with a
    storage of fewer than [2 ^ w - 1] values, is rebuilt by the seeded
    constructor from its own first row and first column: for
    sequences [row] and [column] of lengths [size2_] and [size1_] that hold
    the elements [get (0, k)] and [get (k, 0)], the construction from
    [(row, column)] succeeds and yields the matrix itself. *)
Theorem row_column_rebuilds m row column :
  well_formed w m -> allocatable w (array_size (data_ m)) ->
  0 < size1_ m -> 0 < size2_ m ->
  array_size row = size2_ m -> array_size column = size1_ m ->
  (forall (k : nat) y, row !! k = Some y -> at_const w m 0 (Z.of_nat k) = Ok y) ->
  (forall (k : nat) y, column !! k = Some y -> at_const w m (Z.of_nat k) 0 = Ok y) ->
  toeplitz_matrix_row_column w zero row column = Ok m.
Proof.
  intros Hwf Halloc H1 H2 Hlr Hlc Hrow Hcol.
  pose proof Hwf as (_ & _ & _ & Hlen).
  rewrite Hlen in Halloc.
  pose proof (well_formed_diagonals w m Hwf) as Hd.
  unfold array_size in Hlr, Hlc, Hlen.
  (* the slot behind each element of the two sequences *)
  assert (forall (k : nat) y, row !! k = Some y ->
            data_ m !! (Z.to_nat (size1_ m) - 1 + k)%nat = Some y) as Hrow'.
  { intros k y Hk. pose proof (lookup_lt_Some _ _ _ Hk) as Hlt.
    specialize (Hrow k y Hk).
    rewrite at_const_load in Hrow by (assumption || lia).
    unfold array_load in Hrow.
    replace (Z.to_nat (size1_ m - 1 - 0 + Z.of_nat k))
      with (Z.to_nat (size1_ m) - 1 + k)%nat in Hrow by lia.
    destruct (data_ m !! (Z.to_nat (size1_ m) - 1 + k)%nat); congruence. }
  assert (forall (k : nat) y, column !! k = Some y ->
            data_ m !! (Z.to_nat (size1_ m) - 1 - k)%nat = Some y) as Hcol'.
  { intros k y Hk. pose proof (lookup_lt_Some _ _ _ Hk) as Hlt.
    specialize (Hcol k y Hk).
    rewrite at_const_load in Hcol by (assumption || lia).
    unfold array_load in Hcol.
    replace (Z.to_nat (size1_ m - 1 - Z.of_nat k + 0))
      with (Z.to_nat (size1_ m) - 1 - k)%nat in Hcol by lia.
    destruct (data_ m !! (Z.to_nat (size1_ m) - 1 - k)%nat); congruence. }
  destruct (lookup_lt_is_Some_2 row 0) as [x Hx]; [lia|].
  destruct (lookup_lt_is_Some_2 column 0) as [x' Hx']; [lia|].
  assert (x' = x) as ->.
  { pose proof (Hrow' _ _ Hx) as Ha. pose proof (Hcol' _ _ Hx') as Hb.
    rewrite Nat.add_0_r in Ha. rewrite Nat.sub_0_r in Hb. congruence. }
  rewrite (row_column_ok w zero row column x Hx Hx')
    by (unfold array_size; rewrite Hlr, Hlc;
        replace (size2_ m + size1_ m - 1) with (size1_ m + size2_ m - 1) by lia;
        assumption).
  f_equal. unfold array_size. rewrite Hlr, Hlc.
  etransitivity; [|apply toeplitz_matrix_eta]. f_equal.
  apply list_eq. intros n.
  destruct (decide (n < length column)%nat) as [Hn | Hn].
  - rewrite lookup_app_l by (rewrite length_reverse; exact Hn).
    rewrite reverse_lookup by exact Hn.
    destruct (lookup_lt_is_Some_2 column (length column - S n)) as [y Hy]; [lia|].
    rewrite Hy. symmetry.
    replace n with (Z.to_nat (size1_ m) - 1 - (length column - S n))%nat at 1 by lia.
    apply Hcol', Hy.
  - rewrite lookup_app_r by (rewrite length_reverse; lia).
    rewrite length_reverse, lookup_drop.
    destruct (decide (1 + (n - length column) < length row)%nat) as [Hin | Hout].
    + destruct (lookup_lt_is_Some_2 row (1 + (n - length column))) as [y Hy];
        [exact Hin|].
      rewrite Hy. symmetry.
      replace n with (Z.to_nat (size1_ m) - 1 + (1 + (n - length column)))%nat at 1
        by lia.
      apply Hrow', Hy.
    + rewrite lookup_ge_None_2 by lia.
      symmetry. apply lookup_ge_None_2. lia.
Qed.

End SeededFacts.

(** ** Reshaping *)

Section ReshapeFacts.
Variable w : positive.
Context {T : Type} `{EqDecision T}.
Variable zero : T.
Implicit Types m : @toeplitz_matrix T.

(** X10: a preserving resize to dimensions of the same sum is a reshape that
    can be undone: it succeeds, the element at [(i, j)] of the reshaped
    matrix is the element of the original one whose diagonal has the same
    slot ([size1 - i + j = size1_ - i0 + j0]), and resizing back to the
    original dimensions gives the original matrix. *)
Theorem resize_preserve_reshape m size1 size2 :
  well_formed w m ->
  representable w size1 -> representable w size2 ->
  size1 + size2 = size1_ m + size2_ m ->
  exists m',
    resize w zero size1 size2 true m = (m', Ok tt) /\
    well_formed w m' /\
    (forall i j i0 j0,
       0 <= i < size1 -> 0 <= j < size2 ->
       0 <= i0 < size1_ m -> 0 <= j0 < size2_ m ->
       size1 - i + j = size1_ m - i0 + j0 ->
       at_const w m' i j = at_const w m i0 j0) /\
    resize w zero (size1_ m) (size2_ m) true m' = (m, Ok tt).
Proof.
  intros Hwf Hs1 Hs2 Hsum. pose proof Hwf as (H1 & H2 & H3 & Hlen).
  pose proof (well_formed_diagonals w m Hwf) as Hd.
  eexists. split.
  { apply resize_preserve_succeeds. unfold size_add. rewrite Hsum. reflexivity. }
  assert (well_formed w {| data_ := data_ m; size1_ := size1; size2_ := size2 |})
    as Hwf'.
  { unfold well_formed. cbn [data_ size1_ size2_].
    split; [exact Hs1 | split; [exact Hs2 | split; [exact H3 | lia]]]. }
  split; [exact Hwf' | split].
  - intros i j i0 j0 Hi Hj Hi0 Hj0 Hslot.
    rewrite at_const_load; cbn [data_ size1_ size2_];
      [ | lia | rewrite Hsum; exact Hd | assumption | assumption ].
    rewrite (at_const_load w m i0 j0) by assumption.
    f_equal. lia.
  - rewrite resize_preserve_succeeds; cbn [data_ size1_ size2_].
    + rewrite toeplitz_matrix_eta. reflexivity.
    + unfold size_add. rewrite Hsum. reflexivity.
Qed.

(** X11: the preserving resize compares the two sums in the size type, so
    it also accepts new dimensions whose sum exceeds the old one by [2 ^ w]:
    the call succeeds, sets the dimensions and keeps the storage, which then
    no longer holds one value per diagonal. *)
Theorem resize_preserve_accepts_overflow m size1 size2 :
  size1 + size2 = size1_ m + size2_ m + modulus w ->
  exists m',
    resize w zero size1 size2 true m = (m', Ok tt) /\
    size1_ m' = size1 /\ size2_ m' = size2 /\ data_ m' = data_ m /\
    (diagonal_count m -> ~ diagonal_count m').
Proof.
  intros Hsum. eexists. split.
  { apply resize_preserve_succeeds. unfold size_add, wrap.
    rewrite Hsum.
    replace (size1_ m + size2_ m + modulus w)
      with (size1_ m + size2_ m + 1 * modulus w) by lia.
    apply Z_mod_plus_full. }
  cbn [data_ size1_ size2_].
  split; [reflexivity | split; [reflexivity | split; [reflexivity|]]].
  unfold diagonal_count. cbn [data_ size1_ size2_].
  pose proof (modulus_pos w). lia.
Qed.

End ReshapeFacts.

(** ** Objects: swap and copy assignment *)

Section ExchangeFacts.
Variable w : positive.
Context {T : Type} `{EqDecision T}.
Implicit Types (m : @toeplitz_matrix T) (h : gmap nat (@toeplitz_matrix T)).

(** X12: [swap] is symmetric in its two matrices and undoes itself:
    [a.swap (b)] and [b.swap (a)] leave the same store of objects, and
    swapping twice restores the store. *)
Theorem swap_symmetric_involutive h a b ma mb :
  h !! a = Some ma -> h !! b = Some mb ->
  exists h',
    swap a b h = (h', Ok tt) /\ swap b a h = (h', Ok tt) /\
    swap a b h' = (h, Ok tt).
Proof.
  intros Ha Hb. destruct (decide (a = b)) as [->|Hne].
  - exists h. rewrite swap_self. auto.
  - exists (<[b := ma]> (<[a := mb]> h)).
    rewrite (swap_distinct h a b ma mb Hne Ha Hb).
    rewrite (swap_distinct h b a mb ma) by (congruence || assumption).
    split; [reflexivity | split].
    + f_equal. apply insert_insert_ne. congruence.
    + rewrite (swap_distinct _ a b mb ma Hne);
        [ | rewrite lookup_insert_ne by congruence; apply lookup_insert_eq
          | apply lookup_insert_eq ].
      f_equal. apply map_eq. intros p.
      destruct (decide (p = b)) as [->|Hpb].
      * rewrite lookup_insert_eq. congruence.
      * rewrite lookup_insert_ne by congruence.
        destruct (decide (p = a)) as [->|Hpa].
        -- rewrite lookup_insert_eq. congruence.
        -- rewrite !lookup_insert_ne by congruence. reflexivity.
Qed.

(** X13: copy assignment [a = b] succeeds, returns [a], gives [a] the
    dimensions and the storage of [b] and changes no other object; the
    storage is copied and not shared, since an element assignment to [a]
    made afterwards leaves [b] as it was. *)
Theorem copy_assignment_deep h a b ma mb :
  h !! a = Some ma -> h !! b = Some mb ->
  exists h',
    assign a b h = (h', Ok a) /\
    h' !! a = Some mb /\ h' !! b = Some mb /\
    (forall p, p <> a -> h' !! p = h !! p) /\
    (a <> b -> forall i j v,
       exists h'' r,
         call a (insert_element w i j v) h' = (h'', r) /\ h'' !! b = Some mb).
Proof.
  intros Ha Hb. destruct (decide (a = b)) as [->|Hne].
  - assert (ma = mb) as -> by congruence.
    exists h. rewrite (assign_self _ _ _ Hb).
    split; [reflexivity | split; [exact Hb | split; [exact Hb | split]]].
    + reflexivity.
    + intros Hne. contradiction.
  - exists (<[a := mb]> h). rewrite (assign_distinct _ _ _ _ _ Hne Ha Hb).
    split; [reflexivity | split; [apply lookup_insert_eq | split; [|split]]].
    + rewrite lookup_insert_ne by assumption. exact Hb.
    + intros p Hp. apply lookup_insert_ne. congruence.
    + intros _ i j v.
      destruct (insert_element w i j v mb) as [m' r] eqn:Hins.
      exists (<[a := m']> (<[a := mb]> h)), r. split.
      * apply (call_ok _ _ mb); [apply lookup_insert_eq | exact Hins].
      * rewrite !lookup_insert_ne by assumption. exact Hb.
Qed.

End ExchangeFacts.

(** ** Iterators: arithmetic, comparison and dereference *)

Section CursorFacts.
Variable w : positive.

Lemma modulus_halves : modulus w = 2 * 2 ^ (Z.pos w - 1).
Proof.
  unfold modulus. rewrite <- Z.pow_succ_r by lia. f_equal. lia.
Qed.

Lemma half_modulus_pos : 0 < 2 ^ (Z.pos w - 1).
Proof. apply Z.pow_pos_nonneg; lia. Qed.

(** A signed value survives the conversion to the size type and back. *)
Lemma to_difference_wrap n :
  difference_representable w n -> to_difference w (wrap w n) = n.
Proof.
  unfold difference_representable, to_difference. intros Hn.
  pose proof modulus_halves as Hm. pose proof half_modulus_pos as Hh.
  destruct (Z_lt_le_dec n 0) as [Hneg | Hpos].
  - assert (wrap w n = n + modulus w) as ->.
    { unfold wrap. symmetry. apply (Z.mod_unique_pos _ _ (-1)); lia. }
    rewrite (proj2 (Z.ltb_ge _ _)) by lia. lia.
  - rewrite wrap_id by (unfold representable; lia).
    rewrite (proj2 (Z.ltb_lt _ _)) by lia. reflexivity.
Qed.

Lemma wrap_add_sub i n : wrap w (wrap w (i + n) - n) = wrap w i.
Proof. rewrite wrap_wrap_sub. f_equal. lia. Qed.

Lemma wrap_sub_add i n : wrap w (wrap w (i - n) + n) = wrap w i.
Proof. rewrite wrap_wrap_add. f_equal. lia. Qed.

Lemma const_iterator1_incr_add it (k : nat) :
  representable w (const_iterator1.it1_ it) ->
  Nat.iter k (const_iterator1_incr w) it = const_iterator1_add w it (Z.of_nat k).
Proof.
  intros Hrep. induction k as [|k IH].
  - destruct it as [c i j]. unfold const_iterator1_add, size_add. simpl in *.
    rewrite Z.add_0_r, wrap_id by exact Hrep. reflexivity.
  - rewrite Nat.iter_succ, IH. unfold const_iterator1_incr, const_iterator1_add, size_add.
    simpl. rewrite wrap_wrap_add. do 2 f_equal. lia.
Qed.

Lemma const_iterator2_incr_add it (k : nat) :
  representable w (const_iterator2.it2_ it) ->
  Nat.iter k (const_iterator2_incr w) it = const_iterator2_add w it (Z.of_nat k).
Proof.
  intros Hrep. induction k as [|k IH].
  - destruct it as [c i j]. unfold const_iterator2_add, size_add. simpl in *.
    rewrite Z.add_0_r, wrap_id by exact Hrep. reflexivity.
  - rewrite Nat.iter_succ, IH. unfold const_iterator2_incr, const_iterator2_add, size_add.
    simpl. rewrite wrap_wrap_add. do 2 f_equal. lia.
Qed.

(** X14: for an iterator whose advancing index is a size value, of either
    axis, [--] undoes [++] and [++] undoes [--], [-= n] undoes [+= n] and
    [+= n] undoes [-= n] for every [n], also when the index wraps around in
    between, and [k] increments are one [+= k]; none of them touches the
    container or the fixed index. *)
Theorem iterator_arithmetic_inverse (x : const_iterator1.t) (y : const_iterator2.t) :
  representable w (const_iterator1.it1_ x) ->
  representable w (const_iterator2.it2_ y) ->
  (const_iterator1_decr w (const_iterator1_incr w x) = x /\
   const_iterator1_incr w (const_iterator1_decr w x) = x /\
   (forall n, const_iterator1_sub w (const_iterator1_add w x n) n = x /\
              const_iterator1_add w (const_iterator1_sub w x n) n = x) /\
   (forall k : nat,
      Nat.iter k (const_iterator1_incr w) x = const_iterator1_add w x (Z.of_nat k))) /\
  (const_iterator2_decr w (const_iterator2_incr w y) = y /\
   const_iterator2_incr w (const_iterator2_decr w y) = y /\
   (forall n, const_iterator2_sub w (const_iterator2_add w y n) n = y /\
              const_iterator2_add w (const_iterator2_sub w y n) n = y) /\
   (forall k : nat,
      Nat.iter k (const_iterator2_incr w) y = const_iterator2_add w y (Z.of_nat k))).
Proof.
  intros Hx Hy. split.
  - destruct x as [c i j]. simpl in Hx.
    unfold const_iterator1_decr, const_iterator1_incr, const_iterator1_sub,
      const_iterator1_add, size_add, size_sub. simpl.
    rewrite wrap_add_sub, wrap_sub_add, wrap_id by exact Hx.
    split; [reflexivity | split; [reflexivity | split]].
    + intros n. rewrite wrap_add_sub, wrap_sub_add, wrap_id by exact Hx.
      split; reflexivity.
    + intros k.
      apply (const_iterator1_incr_add (const_iterator1.make c i j) k Hx).
  - destruct y as [c i j]. simpl in Hy.
    unfold const_iterator2_decr, const_iterator2_incr, const_iterator2_sub,
      const_iterator2_add, size_add, size_sub. simpl.
    rewrite wrap_add_sub, wrap_sub_add, wrap_id by exact Hy.
    split; [reflexivity | split; [reflexivity | split]].
    + intros n. rewrite wrap_add_sub, wrap_sub_add, wrap_id by exact Hy.
      split; reflexivity.
    + intros k.
      apply (const_iterator2_incr_add (const_iterator2.make c i j) k Hy).
Qed.

(** X15: the difference of two row iterators of one container and one fixed
    column is the signed distance of their indices: after [+= n], for any
    [n] of the difference type, the difference to the starting iterator is
    [n], also when the index wrapped around; and [<] orders the indices.
    Column iterators behave alike along the other axis. *)
Theorem iterator_difference_after_add c i j n :
  difference_representable w n ->
  const_iterator1_difference w
    (const_iterator1_add w (const_iterator1.make c i j) n)
    (const_iterator1.make c i j) = Ok n /\
  const_iterator2_difference w
    (const_iterator2_add w (const_iterator2.make c i j) n)
    (const_iterator2.make c i j) = Ok n /\
  (representable w i -> representable w (i + n) ->
     const_iterator1_lt (const_iterator1.make c i j)
       (const_iterator1_add w (const_iterator1.make c i j) n) = Ok (0 <? n)) /\
  (representable w j -> representable w (j + n) ->
     const_iterator2_lt (const_iterator2.make c i j)
       (const_iterator2_add w (const_iterator2.make c i j) n) = Ok (0 <? n)).
Proof.
  intros Hn.
  unfold const_iterator1_difference, const_iterator2_difference,
    const_iterator1_lt, const_iterator2_lt, const_iterator1_add, const_iterator2_add.
  cbn [const_iterator1.container const_iterator1.it1_ const_iterator1.it2_
       const_iterator2.container const_iterator2.it1_ const_iterator2.it2_].
  rewrite !bool_decide_eq_true_2 by reflexivity. rewrite !Z.eqb_refl.
  cbn [BOOST_UBLAS_CHECK mbind outcome_bind].
  assert (forall a, size_sub w (size_add w a n) a = wrap w n) as Hsub.
  { intros a. unfold size_sub, size_add. rewrite wrap_wrap_sub. f_equal. lia. }
  rewrite !Hsub, to_difference_wrap by exact Hn.
  split; [reflexivity | split; [reflexivity | split]].
  - intros Hi Hin. unfold size_add. rewrite wrap_id by exact Hin.
    f_equal. destruct (Z.ltb_spec i (i + n)), (Z.ltb_spec 0 n); reflexivity || lia.
  - intros Hj Hjn. unfold size_add. rewrite wrap_id by exact Hjn.
    f_equal. destruct (Z.ltb_spec j (j + n)), (Z.ltb_spec 0 n); reflexivity || lia.
Qed.

(** X16: comparing or subtracting two row iterators that refer to different
    containers, or to the same container with different fixed columns,
    raises [external_logic]; so does it for two column iterators with
    different containers or different fixed rows. *)
Theorem iterator_comparison_precondition :
  (forall x it : const_iterator1.t,
     const_iterator1.container x <> const_iterator1.container it \/
     const_iterator1.it2_ x <> const_iterator1.it2_ it ->
     const_iterator1_eq x it = Raise external_logic /\
     const_iterator1_lt x it = Raise external_logic /\
     const_iterator1_difference w x it = Raise external_logic) /\
  (forall x it : const_iterator2.t,
     const_iterator2.container x <> const_iterator2.container it \/
     const_iterator2.it1_ x <> const_iterator2.it1_ it ->
     const_iterator2_eq x it = Raise external_logic /\
     const_iterator2_lt x it = Raise external_logic /\
     const_iterator2_difference w x it = Raise external_logic).
Proof.
  split; intros x it Hbad.
  - unfold const_iterator1_eq, const_iterator1_lt, const_iterator1_difference.
    destruct (decide (const_iterator1.container x = const_iterator1.container it))
      as [Hc | Hc].
    + rewrite !bool_decide_eq_true_2 by exact Hc.
      destruct Hbad as [Hbad | Hbad]; [contradiction|].
      rewrite (proj2 (Z.eqb_neq _ _) Hbad). repeat split.
    + rewrite !bool_decide_eq_false_2 by exact Hc. repeat split.
  - unfold const_iterator2_eq, const_iterator2_lt, const_iterator2_difference.
    destruct (decide (const_iterator2.container x = const_iterator2.container it))
      as [Hc | Hc].
    + rewrite !bool_decide_eq_true_2 by exact Hc.
      destruct Hbad as [Hbad | Hbad]; [contradiction|].
      rewrite (proj2 (Z.eqb_neq _ _) Hbad). repeat split.
    + rewrite !bool_decide_eq_false_2 by exact Hc. repeat split.
Qed.

End CursorFacts.

Section DerefFacts.
Variable w : positive.
Context {T : Type} `{EqDecision T}.
Implicit Types (m : @toeplitz_matrix T) (h : gmap nat (@toeplitz_matrix T)).

Lemma at_const_bad_index m i j :
  size1_ m <= i \/ size2_ m <= j -> at_const w m i j = Raise bad_index.
Proof.
  intros Hout. unfold at_const.
  destruct (index_check_fails m i j Hout) as [Hi | [Hi Hj]].
  - rewrite Hi. reflexivity.
  - rewrite Hi, Hj. reflexivity.
Qed.

Lemma container_ref_ok h p m : h !! p = Some m -> container_ref h p = Ok m.
Proof. intros Hp. unfold container_ref. rewrite Hp. reflexivity. Qed.

(** X17: the positions that delimit a traversal cannot be dereferenced:
    dereferencing [end1 ()], [end2 ()] or the [end ()] of any row or column
    position raises [bad_index], and so does dereferencing the iterator that
    [--] makes of [begin1 ()] or [begin2 ()], whose index wraps around to
    the largest size value. *)
Theorem end_not_dereferenceable h this m :
  h !! this = Some m ->
  representable w (size1_ m) -> representable w (size2_ m) ->
  (exists last, end1 h this = Ok last /\
                const_iterator1_deref w h last = Raise bad_index) /\
  (exists last, end2 h this = Ok last /\
                const_iterator2_deref w h last = Raise bad_index) /\
  (forall i j, exists last,
     const_iterator1_end h (const_iterator1.make this i j) = Ok last /\
     const_iterator2_deref w h last = Raise bad_index) /\
  (forall i j, exists last,
     const_iterator2_end h (const_iterator2.make this i j) = Ok last /\
     const_iterator1_deref w h last = Raise bad_index) /\
  const_iterator1_index1 (const_iterator1_decr w (begin1 this)) = 2 ^ Z.pos w - 1 /\
  const_iterator1_deref w h (const_iterator1_decr w (begin1 this)) = Raise bad_index /\
  const_iterator2_index2 (const_iterator2_decr w (begin2 this)) = 2 ^ Z.pos w - 1 /\
  const_iterator2_deref w h (const_iterator2_decr w (begin2 this)) = Raise bad_index.
Proof.
  intros Hm H1 H2. pose proof (container_ref_ok h this m Hm) as Href.
  assert (size_sub w 0 1 = modulus w - 1) as Hwrap
    by (unfold size_sub; apply wrap_minus_one).
  unfold representable in H1, H2.
  assert (forall i j, size1_ m <= i \/ size2_ m <= j ->
            const_iterator1_deref w h (const_iterator1.make this i j) =
              Raise bad_index) as Hrow.
  { intros i j Hout. unfold const_iterator1_deref.
    cbn [const_iterator1.container const_iterator1.it1_ const_iterator1.it2_].
    rewrite Href. apply at_const_bad_index, Hout. }
  assert (forall i j, size1_ m <= i \/ size2_ m <= j ->
            const_iterator2_deref w h (const_iterator2.make this i j) =
              Raise bad_index) as Hcolumn.
  { intros i j Hout. unfold const_iterator2_deref.
    cbn [const_iterator2.container const_iterator2.it1_ const_iterator2.it2_].
    rewrite Href. apply at_const_bad_index, Hout. }
  split.
  { eexists. split; [unfold end1; rewrite Href; reflexivity|]. apply Hrow. lia. }
  split.
  { eexists. split; [unfold end2; rewrite Href; reflexivity|]. apply Hcolumn. lia. }
  split.
  { intros i j. eexists. split.
    - unfold const_iterator1_end. cbn [const_iterator1.container].
      rewrite Href. reflexivity.
    - apply Hcolumn. unfold size2. cbn [const_iterator1.it1_]. lia. }
  split.
  { intros i j. eexists. split.
    - unfold const_iterator2_end. cbn [const_iterator2.container].
      rewrite Href. reflexivity.
    - apply Hrow. unfold size1. cbn [const_iterator2.it2_]. lia. }
  unfold const_iterator1_decr, const_iterator2_decr, begin1, begin2,
    const_iterator1_index1, const_iterator2_index2.
  cbn [const_iterator1.container const_iterator1.it1_ const_iterator1.it2_
       const_iterator2.container const_iterator2.it1_ const_iterator2.it2_].
  rewrite Hwrap. fold (modulus w).
  split; [reflexivity | split; [apply Hrow; lia | split; [reflexivity|]]].
  apply Hcolumn. lia.
Qed.

(** X18: on a matrix that satisfies the representation invariant, an
    assignment through a mutable iterator at a valid position writes the slot that
    dereferencing the iterator yields; afterwards the const iterators of
    both axes read the assigned value at every position of that diagonal
    and the former value elsewhere, and every other object is unchanged. *)
Theorem iterator_assign_aliases h this m i j v :
  h !! this = Some m -> well_formed w m ->
  0 <= i < size1_ m -> 0 <= j < size2_ m ->
  exists h' r,
    iterator1_assign w (iterator1.make this i j) v h = (h', Ok r) /\
    iterator2_assign w (iterator2.make this i j) v h = (h', Ok r) /\
    iterator1_deref w h (iterator1.make this i j) = Ok r /\
    iterator2_deref w h (iterator2.make this i j) = Ok r /\
    const_iterator1_deref w h (const_iterator1_of_iterator1 (iterator1.make this i j)) =
      array_load (data_ m) r /\
    (forall i' j', 0 <= i' < size1_ m -> 0 <= j' < size2_ m ->
       (i' - j' = i - j ->
          const_iterator1_deref w h' (const_iterator1.make this i' j') = Ok v /\
          const_iterator2_deref w h' (const_iterator2.make this i' j') = Ok v) /\
       (i' - j' <> i - j ->
          const_iterator1_deref w h' (const_iterator1.make this i' j') =
            const_iterator1_deref w h (const_iterator1.make this i' j') /\
          const_iterator2_deref w h' (const_iterator2.make this i' j') =
            const_iterator2_deref w h (const_iterator2.make this i' j'))) /\
    (forall p, p <> this -> h' !! p = h !! p).
Proof.
  intros Hm Hwf Hi Hj.
  destruct (assign_element_reads w m i j v Hwf Hi Hj)
    as (m' & r & Hrun & _ & _ & Hreads).
  pose proof (assign_element_ok w m i j v Hwf Hi Hj) as Hexact.
  rewrite Hexact in Hrun. injection Hrun as Hm' Hr.
  exists (<[this := m']> h), r.
  pose proof (container_ref_ok h this m Hm) as Href.
  assert (container_ref (<[this := m']> h) this = Ok m') as Href'
    by (apply container_ref_ok, lookup_insert_eq).
  unfold iterator1_assign, iterator2_assign, iterator1_deref, iterator2_deref,
    const_iterator1_deref, const_iterator2_deref, const_iterator1_of_iterator1.
  cbn [iterator1.container iterator1.it1_ iterator1.it2_
       iterator2.container iterator2.it1_ iterator2.it2_
       const_iterator1.container const_iterator1.it1_ const_iterator1.it2_
       const_iterator2.container const_iterator2.it1_ const_iterator2.it2_].
  rewrite Href, Href'. cbn [mbind outcome_bind].
  assert (call this (assign_element w i j v) h = (<[this := m']> h, Ok r)) as Hcall.
  { apply (call_ok h this m); [exact Hm|]. rewrite Hexact, Hm', Hr. reflexivity. }
  rewrite Hcall.
  split; [reflexivity | split; [reflexivity|]].
  split; [rewrite at_ref_ok by assumption; rewrite <- Hr; reflexivity|].
  split; [rewrite at_ref_ok by assumption; rewrite <- Hr; reflexivity|].
  split.
  { rewrite at_const_load by (auto using well_formed_diagonals || apply Hwf).
    rewrite <- Hr. reflexivity. }
  split.
  - intros i' j' Hi' Hj'. destruct (Hreads i' j' Hi' Hj') as [Hsame Hother].
    split; intros Hdiag.
    + rewrite (Hsame Hdiag). split; reflexivity.
    + rewrite (Hother Hdiag). split; reflexivity.
  - intros p Hp. apply lookup_insert_ne. congruence.
Qed.

End DerefFacts.

(** ** Reading a seeded matrix through its iterators *)

Section SeededTraversal.
Variable w : positive.
Context {T : Type} `{EqDecision T}.
Variable zero : T.
Implicit Types (m : @toeplitz_matrix T) (h : gmap nat (@toeplitz_matrix T)).

(** Dereferencing consecutive positions that hold the elements of a list. *)
Lemma mapM_positions {P} (deref : P -> outcome T) (position : Z -> P) (l : list T) :
  forall start,
  (forall (k : nat) y, l !! k = Some y -> deref (position (start + Z.of_nat k)) = Ok y) ->
  mapM deref (map position (seqZ start (Z.of_nat (length l)))) = Ok l.
Proof.
  induction l as [|x l IH]; intros start Hread.
  - reflexivity.
  - rewrite seqZ_cons by (simpl; lia).
    replace (Z.pred (Z.of_nat (length (x :: l)))) with (Z.of_nat (length l))
      by (simpl; lia).
    cbn [map mapM].
    pose proof (Hread 0%nat x eq_refl) as Hhead.
    rewrite Z.add_0_r in Hhead. rewrite Hhead. cbn [mbind outcome_bind].
    rewrite IH; [reflexivity|].
    intros k y Hk. specialize (Hread (S k) y Hk).
    replace (Z.succ start + Z.of_nat k) with (start + Z.of_nat (S k)) by lia.
    exact Hread.
Qed.

(** X19: for the matrix built from a row [r] and a column [c] and stored at
    an address, the loop from [begin1 ()] to [end1 ()] visits positions
    whose dereferences are, in order, the elements of [c]; the loop over the
    sub-range [begin ()] to [end ()] of the first row position reads the
    elements of [r]; both for every bound on the iterations above the
    length. *)
Theorem seeded_traversal_reads h this m row column x :
  row !! 0%nat = Some x -> column !! 0%nat = Some x ->
  representable w (array_size row + array_size column - 1) ->
  toeplitz_matrix_row_column w zero row column = Ok m ->
  h !! this = Some m ->
  (exists last,
     end1 h this = Ok last /\
     forall fuel, (length column < fuel)%nat ->
       exists positions,
         const_iterator1_range w fuel (begin1 this) last = Some (Ok positions) /\
         mapM (const_iterator1_deref w h) positions = Ok column) /\
  (exists last,
     const_iterator1_end h (begin1 this) = Ok last /\
     forall fuel, (length row < fuel)%nat ->
       exists positions,
         const_iterator2_range w fuel (const_iterator1_begin (begin1 this)) last =
           Some (Ok positions) /\
         mapM (const_iterator2_deref w h) positions = Ok row).
Proof.
  intros Hr Hc Hrep Hbuilt Hm.
  destruct (row_column_inv w zero row column m Hbuilt) as (_ & _ & _ & _ & Halloc).
  destruct (row_column_reads w zero row column x Hr Hc Hrep Halloc)
    as (m0 & Hm0 & H1 & H2 & _ & Hrow & Hcol).
  assert (m0 = m) as -> by congruence.
  assert (0 < length row)%nat as Hlr by (eapply lookup_lt_Some, Hr).
  assert (0 < length column)%nat as Hlc by (eapply lookup_lt_Some, Hc).
  assert (representable w (size1_ m)) as R1.
  { rewrite H1. unfold representable, array_size in *. lia. }
  assert (representable w (size2_ m)) as R2.
  { rewrite H2. unfold representable, array_size in *. lia. }
  pose proof (container_ref_ok h this m Hm) as Href.
  split.
  - eexists. split; [unfold end1; rewrite Href; reflexivity|].
    intros fuel Hfuel. eexists. split.
    + apply const_iterator1_range_axis; [exact R1|].
      rewrite H1. unfold array_size. lia.
    + rewrite H1. unfold array_size. apply mapM_positions.
      intros k y Hk. unfold const_iterator1_deref.
      cbn [const_iterator1.container const_iterator1.it1_ const_iterator1.it2_].
      rewrite Href. apply (Hcol k y Hk).
  - eexists. split.
    { unfold const_iterator1_end, begin1. cbn [const_iterator1.container].
      rewrite Href. reflexivity. }
    intros fuel Hfuel. eexists. split.
    + unfold const_iterator1_begin, begin1, size2.
      cbn [const_iterator1.container const_iterator1.it1_].
      apply const_iterator2_range_axis; [exact R2|].
      rewrite H2. unfold array_size. lia.
    + rewrite H2. unfold array_size. apply mapM_positions.
      intros k y Hk. unfold const_iterator2_deref.
      cbn [const_iterator2.container const_iterator2.it1_ const_iterator2.it2_].
      rewrite Href. apply (Hrow k y Hk).
Qed.

End SeededTraversal.

(** * Instances of the further properties *)

Lemma access_out_of_range_witness :
  (size1_ two_by_two <= 2 \/ size2_ two_by_two <= 0) /\
  at_const 64 two_by_two 2 0 = Raise bad_index.
Proof.
  assert (size1_ two_by_two <= 2 \/ size2_ two_by_two <= 0) as Hout
    by (left; simpl; lia).
  split; [exact Hout|].
  exact (proj1 (access_out_of_range 64 two_by_two 2 0 Hout)).
Defined.

Lemma mutation_out_of_range_witness :
  (size1_ two_by_two <= 0 \/ size2_ two_by_two <= 5) /\
  insert_element 64 0 5 9 two_by_two = (two_by_two, Raise bad_index).
Proof.
  assert (size1_ two_by_two <= 0 \/ size2_ two_by_two <= 5) as Hout
    by (right; simpl; lia).
  split; [exact Hout|].
  exact (proj1 (mutation_out_of_range 64 0 two_by_two 0 5 9 Hout)).
Defined.

Lemma in_range_two_by_two_0 : 0 <= 0 < 2.
Proof. lia. Defined.

Lemma in_range_two_by_two_1 : 0 <= 1 < 2.
Proof. lia. Defined.

Lemma constant_diagonal_witness :
  (well_formed 64 two_by_two /\ 0 <= 0 < size1_ two_by_two /\
   0 <= 1 < size1_ two_by_two /\ 0 - 0 = 1 - 1) /\
  exists x, at_const 64 two_by_two 0 0 = Ok x /\ at_const 64 two_by_two 1 1 = Ok x.
Proof.
  split; [auto using well_formed_two_by_two, in_range_two_by_two_0,
            in_range_two_by_two_1|].
  exact (constant_diagonal 64 two_by_two 0 0 1 1 well_formed_two_by_two
           in_range_two_by_two_0 in_range_two_by_two_0
           in_range_two_by_two_1 in_range_two_by_two_1 eq_refl).
Defined.

Lemma erase_element_diagonal_witness :
  (well_formed 64 two_by_two /\ 0 <= 0 < size1_ two_by_two) /\
  exists m',
    erase_element 64 0 0 0 two_by_two = (m', Ok tt) /\
    at_const 64 m' 1 1 = Ok 0.
Proof.
  split; [auto using well_formed_two_by_two, in_range_two_by_two_0|].
  destruct (erase_element_diagonal 64 0 two_by_two 0 0 well_formed_two_by_two
              in_range_two_by_two_0 in_range_two_by_two_0)
    as (m' & Hrun & _ & _ & Hreads).
  exists m'. split; [exact Hrun|].
  exact (proj1 (Hreads 1 1 in_range_two_by_two_1 in_range_two_by_two_1) eq_refl).
Defined.

Lemma clear_zeroes_witness :
  well_formed 64 two_by_two /\
  exists m', clear 0 two_by_two = (m', Ok tt) /\ at_const 64 m' 0 1 = Ok 0.
Proof.
  split; [exact well_formed_two_by_two|].
  destruct (clear_zeroes 64 0 two_by_two well_formed_two_by_two)
    as (m' & Hrun & _ & _ & _ & Hreads).
  exists m'. split; [exact Hrun|].
  exact (Hreads 0 1 in_range_two_by_two_0 in_range_two_by_two_1).
Defined.

Lemma insert_element_order_witness :
  (well_formed 64 two_by_two /\ 0 <= 0 < size1_ two_by_two /\
   0 <= 1 < size2_ two_by_two /\ 0 - 0 <> 0 - 1) /\
  (insert_element 64 0 1 8 (insert_element 64 0 0 7 two_by_two).1).1 =
  (insert_element 64 0 0 7 (insert_element 64 0 1 8 two_by_two).1).1.
Proof.
  assert (0 - 0 <> 0 - 1) as Hne by discriminate.
  split; [auto using well_formed_two_by_two, in_range_two_by_two_0,
            in_range_two_by_two_1|].
  exact (proj1 (insert_element_order 64 two_by_two 0 0 7 0 1 8
                  well_formed_two_by_two
                  in_range_two_by_two_0 in_range_two_by_two_0
                  in_range_two_by_two_0 in_range_two_by_two_1) Hne).
Defined.

Lemma insert_element_read_back_witness :
  (well_formed 64 two_by_two /\ at_const 64 two_by_two 0 0 = Ok 2) /\
  exists r, insert_element 64 0 0 2 two_by_two = (two_by_two, Ok r).
Proof.
  assert (at_const 64 two_by_two 0 0 = Ok 2) as Hread by reflexivity.
  split; [auto using well_formed_two_by_two|].
  exact (insert_element_read_back 64 two_by_two 0 0 2 well_formed_two_by_two
           in_range_two_by_two_0 in_range_two_by_two_0 Hread).
Defined.

Lemma row_column_toeplitz_witness :
  (representable 64 (array_size [1; 2; 3] + array_size [1; 4; 5] - 1) /\
   allocatable 64 (array_size [1; 2; 3] + array_size [1; 4; 5] - 1)) /\
  exists m,
    toeplitz_matrix_row_column 64 0 [1; 2; 3] [1; 4; 5] = Ok m /\
    at_const 64 m 1 2 = Ok 2 /\ at_const 64 m 2 1 = Ok 4.
Proof.
  assert (representable 64 (array_size [1; 2; 3] + array_size [1; 4; 5] - 1))
    as Hrep by representable_numeral.
  assert (allocatable 64 (array_size [1; 2; 3] + array_size [1; 4; 5] - 1))
    as Halloc by discriminate.
  split; [auto|].
  destruct (row_column_toeplitz 64 0 [1; 2; 3] [1; 4; 5] 1 eq_refl eq_refl
              Hrep Halloc) as (m & Hm & Hreads).
  exists m. split; [exact Hm | split].
  - apply (proj1 (Hreads 1%nat 2%nat ltac:(simpl; lia) ltac:(simpl; lia)) 2);
      [lia | reflexivity].
  - apply (proj2 (Hreads 2%nat 1%nat ltac:(simpl; lia) ltac:(simpl; lia)) 4);
      [lia | reflexivity].
Defined.

Lemma row_column_rebuilds_witness :
  (well_formed 64 two_by_two /\ allocatable 64 (array_size (data_ two_by_two)) /\
   array_size [2; 3] = size2_ two_by_two /\
   array_size [2; 1] = size1_ two_by_two) /\
  toeplitz_matrix_row_column 64 0 [2; 3] [2; 1] = Ok two_by_two.
Proof.
  assert (allocatable 64 (array_size (data_ two_by_two))) as Halloc by discriminate.
  split; [split; [exact well_formed_two_by_two | split; [exact Halloc | split; reflexivity]]|].
  apply (row_column_rebuilds 64 0 two_by_two [2; 3] [2; 1] well_formed_two_by_two
           Halloc);
    try reflexivity.
  - intros [|[|k]] y Hy; simpl in Hy; try discriminate;
      injection Hy as <-; reflexivity.
  - intros [|[|k]] y Hy; simpl in Hy; try discriminate;
      injection Hy as <-; reflexivity.
Defined.

Lemma resize_preserve_reshape_witness :
  (well_formed 64 two_by_two /\ representable 64 3 /\ representable 64 1 /\
   3 + 1 = size1_ two_by_two + size2_ two_by_two) /\
  exists m',
    resize 64 0 3 1 true two_by_two = (m', Ok tt) /\
    at_const 64 m' 2 0 = at_const 64 two_by_two 1 0 /\
    resize 64 0 2 2 true m' = (two_by_two, Ok tt).
Proof.
  assert (representable 64 3) as H3 by representable_numeral.
  assert (representable 64 1) as H1 by representable_numeral.
  split; [auto using well_formed_two_by_two|].
  destruct (resize_preserve_reshape 64 0 two_by_two 3 1 well_formed_two_by_two
              H3 H1 eq_refl) as (m' & Hrun & _ & Hreads & Hback).
  exists m'. split; [exact Hrun | split; [|exact Hback]].
  apply Hreads; simpl; lia.
Defined.

Lemma resize_preserve_accepts_overflow_witness :
  18446744073709551615 + 5 = size1_ two_by_two + size2_ two_by_two + modulus 64 /\
  exists m',
    resize 64 0 18446744073709551615 5 true two_by_two = (m', Ok tt) /\
    size1_ m' = 18446744073709551615 /\ ~ diagonal_count m'.
Proof.
  assert (18446744073709551615 + 5 =
          size1_ two_by_two + size2_ two_by_two + modulus 64) as Hsum by reflexivity.
  split; [exact Hsum|].
  destruct (resize_preserve_accepts_overflow 64 0 two_by_two _ _ Hsum)
    as (m' & Hrun & H1 & _ & _ & Hcount).
  exists m'. split; [exact Hrun | split; [exact H1|]].
  apply Hcount. reflexivity.
Defined.

Lemma swap_symmetric_involutive_witness :
  (two_objects !! 1%nat = Some two_by_two /\
   two_objects !! 2%nat = Some three_by_three) /\
  exists h',
    swap 1 2 two_objects = (h', Ok tt) /\ swap 2 1 two_objects = (h', Ok tt) /\
    swap 1 2 h' = (two_objects, Ok tt).
Proof.
  split; [split; reflexivity|].
  exact (swap_symmetric_involutive two_objects 1 2 two_by_two three_by_three
           eq_refl eq_refl).
Defined.

Lemma copy_assignment_deep_witness :
  (two_objects !! 1%nat = Some two_by_two /\
   two_objects !! 2%nat = Some three_by_three) /\
  exists h',
    assign 1 2 two_objects = (h', Ok 1%nat) /\
    h' !! 1%nat = Some three_by_three /\ h' !! 2%nat = Some three_by_three.
Proof.
  split; [split; reflexivity|].
  destruct (copy_assignment_deep 64 two_objects 1 2 two_by_two three_by_three
              eq_refl eq_refl) as (h' & Hrun & Ha & Hb & _).
  exists h'. auto.
Defined.

Lemma iterator_arithmetic_inverse_witness :
  (representable 64 0 /\ representable 64 1) /\
  const_iterator1_incr 64 (const_iterator1_decr 64 (begin1 1)) = begin1 1 /\
  const_iterator2_sub 64
    (const_iterator2_add 64 (const_iterator2.make 1 0 1) (-3)) (-3) =
    const_iterator2.make 1 0 1.
Proof.
  assert (representable 64 0) as H0 by representable_numeral.
  assert (representable 64 1) as H1 by representable_numeral.
  split; [auto|].
  destruct (iterator_arithmetic_inverse 64 (begin1 1) (const_iterator2.make 1 0 1)
              H0 H1) as ((_ & Hrow & _) & (_ & _ & Hcolumn & _)).
  split; [exact Hrow | exact (proj1 (Hcolumn (-3)))].
Defined.

Lemma iterator_difference_after_add_witness :
  difference_representable 64 (-1) /\
  const_iterator1_difference 64
    (const_iterator1_add 64 (const_iterator1.make 1 0 0) (-1))
    (const_iterator1.make 1 0 0) = Ok (-1).
Proof.
  assert (difference_representable 64 (-1)) as Hn
    by (unfold difference_representable; split; [discriminate | reflexivity]).
  split; [exact Hn|].
  exact (proj1 (iterator_difference_after_add 64 1%nat 0 0 (-1) Hn)).
Defined.

Lemma iterator_comparison_precondition_witness :
  (const_iterator1.container (begin1 1) <> const_iterator1.container (begin1 2) \/
   const_iterator1.it2_ (begin1 1) <> const_iterator1.it2_ (begin1 2)) /\
  const_iterator1_eq (begin1 1) (begin1 2) = Raise external_logic.
Proof.
  assert (const_iterator1.container (begin1 1) <> const_iterator1.container (begin1 2) \/
          const_iterator1.it2_ (begin1 1) <> const_iterator1.it2_ (begin1 2)) as Hbad
    by (left; discriminate).
  split; [exact Hbad|].
  exact (proj1 (proj1 (iterator_comparison_precondition 64) (begin1 1) (begin1 2) Hbad)).
Defined.

Lemma end_not_dereferenceable_witness :
  (two_objects !! 1%nat = Some two_by_two /\
   representable 64 (size1_ two_by_two) /\ representable 64 (size2_ two_by_two)) /\
  exists last,
    end1 two_objects 1 = Ok last /\
    const_iterator1_deref 64 two_objects last = Raise bad_index.
Proof.
  assert (representable 64 (size1_ two_by_two)) as R1 by (simpl; representable_numeral).
  assert (representable 64 (size2_ two_by_two)) as R2 by (simpl; representable_numeral).
  split; [auto|].
  exact (proj1 (end_not_dereferenceable 64 two_objects 1 two_by_two eq_refl R1 R2)).
Defined.

Lemma iterator_assign_aliases_witness :
  (two_objects !! 1%nat = Some two_by_two /\ well_formed 64 two_by_two) /\
  exists h' r,
    iterator1_assign 64 (iterator1.make 1 0 0) 9 two_objects = (h', Ok r) /\
    const_iterator2_deref 64 h' (const_iterator2.make 1 1 1) = Ok 9 /\
    h' !! 2%nat = Some three_by_three.
Proof.
  split; [split; [reflexivity | exact well_formed_two_by_two]|].
  destruct (iterator_assign_aliases 64 two_objects 1 two_by_two 0 0 9 eq_refl
              well_formed_two_by_two in_range_two_by_two_0 in_range_two_by_two_0)
    as (h' & r & Hrun & _ & _ & _ & _ & Hreads & Hothers).
  exists h', r. split; [exact Hrun | split].
  - exact (proj2 (proj1 (Hreads 1 1 in_range_two_by_two_1 in_range_two_by_two_1)
                    eq_refl)).
  - rewrite (Hothers 2%nat) by discriminate. reflexivity.
Defined.

Lemma seeded_traversal_reads_witness :
  (representable 64 (array_size [2; 3] + array_size [2; 1] - 1) /\
   toeplitz_matrix_row_column 64 0 [2; 3] [2; 1] = Ok two_by_two /\
   two_objects !! 1%nat = Some two_by_two) /\
  exists last positions,
    end1 two_objects 1 = Ok last /\
    const_iterator1_range 64 3 (begin1 1) last = Some (Ok positions) /\
    mapM (const_iterator1_deref 64 two_objects) positions = Ok [2; 1].
Proof.
  assert (representable 64 (array_size [2; 3] + array_size [2; 1] - 1)) as Hrep
    by representable_numeral.
  assert (toeplitz_matrix_row_column 64 0 [2; 3] [2; 1] = Ok two_by_two) as Hbuilt
    by reflexivity.
  split; [auto|].
  destruct (seeded_traversal_reads 64 0 two_objects 1 two_by_two [2; 3] [2; 1] 2
              eq_refl eq_refl Hrep Hbuilt eq_refl) as ((last & Hend & Hloop) & _).
  destruct (Hloop 3%nat ltac:(simpl; lia)) as (positions & Hrange & Hread).
  exists last, positions. auto.
Defined.
